(** * Solving Wordle: the notebook's solver, embedded and verified

    Source: [wordle/Solving Wordle.ipynb].  The code cells define
    [play_wordle], [break_ties], [feature_bucket], [eliminate],
    [choose_guess], [solved_game], [report_solution] and [compute_wordle];
    each is transcribed below under its own name.

    Python values are modelled as follows.
    - [str]: [string]; a letter (an element of [set(word)], or [word[i]]) is
      an [ascii], and the one-character string holding it is [letter c].
    - [set] of letters: [gset ascii]; the code only uses [&], [-] and [len]
      on sets, so their iteration order never matters.
    - [dict]: an association list in insertion order ([dict K V]), because
      the solver iterates over dicts and the order decides the guess.
    - [int]: [Z] for the attempt counter and [max_tries] (any sign), [nat]
      for the results of [len], [enumerate] and sums of those.
    - an exception: [Raise e]; the dict a function mutated before raising is
      kept next to the outcome. *)

From Stdlib Require Import ZArith String Ascii List Lia Sorted Permutation.
From stdpp Require Import gmap strings list.
Import ListNotations.

Open Scope string_scope.
Open Scope list_scope.

(** ** Exceptions and outcomes *)

(** The built-in exceptions the notebook's functions can raise. *)
Inductive exn : Set :=
  | IndexError          (* [s[i]] or [l[0]] out of range *)
  | KeyError            (* [d[k]] on a missing key *)
  | ValueError          (* [max] of an empty list *)
  | UnboundLocalError.  (* a local read before its first assignment *)

(** The class name of an exception, as [type(e).__name__] gives it. *)
Definition exn_name (e : exn) : string :=
  match e with
  | IndexError => "IndexError"
  | KeyError => "KeyError"
  | ValueError => "ValueError"
  | UnboundLocalError => "UnboundLocalError"
  end.

Inductive result (A : Type) : Type :=
  | Return (a : A)
  | Raise (e : exn).
Arguments Return {A} a.
Arguments Raise {A} e.

(** [raises r name]: the call ended by raising an exception of class [name]. *)
Definition raises {A} (r : result A) (name : string) : Prop :=
  exists e, r = Raise e /\ exn_name e = name.

(** ** Strings and letter sets *)

(** The one-character string of a letter. *)
Definition letter (c : ascii) : string := String c EmptyString.

(** [set(word)] *)
Definition set_of (word : string) : gset ascii :=
  list_to_set (list_ascii_of_string word).

(** [len(s)] for [s] a set *)
Definition len (s : gset ascii) : nat := size s.

(** [CONSONANTS] and [VOWELS], the notebook's two constants. *)
Definition CONSONANTS : gset ascii := set_of "bcdfghjklmnpqrstvwxz".
Definition VOWELS : gset ascii := set_of "aeiouy".

(** ** Dicts in insertion order *)

Section dict.
Context {K V : Type} `{EqDecision K}.

Definition dict : Type := list (K * V).

(** [list(d.keys())] *)
Definition dict_keys (d : dict) : list K := map fst d.

(** [d[k]], [None] when the key is missing *)
Fixpoint dict_get (k : K) (d : dict) : option V :=
  match d with
  | [] => None
  | (k', v) :: d' => if decide (k = k') then Some v else dict_get k d'
  end.

(** [d.pop(k)]: the entry leaves, the others keep their order *)
Fixpoint dict_pop (k : K) (d : dict) : dict :=
  match d with
  | [] => []
  | (k', v) :: d' =>
      if decide (k = k') then d' else (k', v) :: dict_pop k d'
  end.

(** [d[k] = v]: an existing key keeps its place, a new one goes last *)
Fixpoint dict_set (k : K) (v : V) (d : dict) : dict :=
  match d with
  | [] => [(k, v)]
  | (k', v') :: d' =>
      if decide (k = k') then (k', v) :: d' else (k', v') :: dict_set k v d'
  end.

(** A Python dict holds each key once. *)
Definition dict_wf (d : dict) : Prop := NoDup (dict_keys d).
End dict.
Arguments dict K V : clear implicits.

(** The candidate pool [cands]: word -> its letter set. *)
Definition pool : Type := dict string (gset ascii).

(** [{k: set(k) for k in data}] *)
Definition make_cands (data : list string) : pool :=
  fold_left (fun d k => dict_set k (set_of k) d) data [].

(** A letter usage table such as [usage_vowels]: letter -> word count. *)
Definition usage_table : Type := dict ascii nat.

(** Buckets: [defaultdict(list)], overlap count -> words. *)
Definition buckets : Type := dict nat (list string).

#[global] Typeclasses Transparent dict pool usage_table buckets.

(** ** play_wordle *)

(** The loop over [zip(word_of_the_day, guess)]. *)
Fixpoint zip_board (word_of_the_day guess : string) : list string :=
  match word_of_the_day, guess with
  | String correct_letter w', String guessed_letter g' =>
      (if Ascii.eqb correct_letter guessed_letter
       then letter guessed_letter else "")
      :: zip_board w' g'
  | _, _ => []
  end.

Definition play_wordle (guess word_of_the_day : string)
  : list string * gset ascii :=
  let correct_letters := set_of word_of_the_day in
  let has_letters := set_of guess in
  let has_letters := has_letters ∩ correct_letters in
  (zip_board word_of_the_day guess, has_letters).

(** ** break_ties and feature_bucket *)

(** [sorted(l, key=key, reverse=True)].  Python's sort is stable, also with
    [reverse=True]: elements with equal keys keep their input order.  A
    stable sort has one possible output, so insertion from the right is a
    faithful model: [x] passes the elements with a strictly larger key and
    stops in front of the first one whose key is not larger. *)
Fixpoint insert_reverse {A} (key : A -> nat) (x : A) (l : list A) : list A :=
  match l with
  | [] => [x]
  | y :: l' =>
      if (key x <? key y)%nat then y :: insert_reverse key x l'
      else x :: y :: l'
  end.

Fixpoint sorted_reverse {A} (key : A -> nat) (l : list A) : list A :=
  match l with
  | [] => []
  | x :: l' => insert_reverse key x (sorted_reverse key l')
  end.

(** Descending by key: [x] may stand before [y]. *)
Definition key_ge {A} (key : A -> nat) (x y : A) : Prop :=
  (key y <= key x)%nat.

(** [enumerate(reversed(usage.items()))], keeping the letter of each item:
    the pairs [(x[0], idx)]. *)
Definition enumerate_reversed (usage : usage_table) : list (ascii * nat) :=
  imap (fun idx x => (fst x, idx)) (reverse usage).

(** The dict comprehension [{x[0]: idx for idx, x in ...}]. *)
Definition rank_weights (usage : usage_table) : dict ascii nat :=
  fold_left (fun uv x => dict_set (fst x) (snd x) uv)
            (enumerate_reversed usage) [].

(** [uv.get(i, 0)] *)
Definition uv_get (uv : dict ascii nat) (i : ascii) : nat :=
  default 0%nat (dict_get i uv).

(** [sum([uv.get(i,0) for i in word])] *)
Definition score (uv : dict ascii nat) (word : string) : nat :=
  foldr (fun i acc => (uv_get uv i + acc)%nat) 0%nat
        (list_ascii_of_string word).

(** [buckets[k].append(word)] on a [defaultdict(list)] *)
Fixpoint bucket_append (k : nat) (word : string) (b : buckets) : buckets :=
  match b with
  | [] => [(k, [word])]
  | (k', words) :: b' =>
      if decide (k = k') then (k', words ++ [word]) :: b'
      else (k', words) :: bucket_append k word b'
  end.

(** ** eliminate *)

(** Step (2), the loop [for i in range(len(game))] from index [i] on, [game]
    being the slots not yet visited.  [Return true]: the word is popped and
    the loop left by [break]; [Return false]: the loop ran to its end.
    [candidate_word[i]] is only evaluated behind [len(game[i]) > 0] and raises
    [IndexError] past the end of the word. *)
Fixpoint shared_position (candidate_word : string) (game : list string)
    (i : nat) : result bool :=
  match game with
  | [] => Return false
  | game_i :: game' =>
      if (0 <? String.length game_i)%nat then
        match String.get i candidate_word with
        | None => Raise IndexError
        | Some c =>
            if negb (String.eqb (letter c) game_i) then Return true
            else shared_position candidate_word game' (S i)
        end
      else shared_position candidate_word game' (S i)
  end.

(** The loop over the snapshot [candidate_words = list(cands.keys())].  The
    dict [cands] is mutated in place: the second component is the dict as the
    loop leaves it, also when an exception ends it. *)
Fixpoint eliminate_loop (candidate_words : list string) (cands : pool)
    (game : list string) (found contra : gset ascii) : result unit * pool :=
  match candidate_words with
  | [] => (Return tt, cands)
  | candidate_word :: rest =>
      match dict_get candidate_word cands with
      | None => (Raise KeyError, cands)
      | Some wordset =>
          (* (1a) *)
          if negb (len (wordset ∩ found) =? len found)%nat then
            eliminate_loop rest (dict_pop candidate_word cands) game found contra
          (* (1b) *)
          else if (0 <? len (wordset ∩ contra))%nat then
            eliminate_loop rest (dict_pop candidate_word cands) game found contra
          (* (2) *)
          else
            match shared_position candidate_word game 0 with
            | Raise e => (Raise e, cands)
            | Return true =>
                eliminate_loop rest (dict_pop candidate_word cands)
                               game found contra
            | Return false => eliminate_loop rest cands game found contra
            end
      end
  end.

(** [eliminate] returns the dict it was given, after the removals: on
    [Return tt] the value returned is the second component. *)
Definition eliminate (cands : pool) (game : list string)
    (found contra : gset ascii) : result unit * pool :=
  let candidate_words := dict_keys cands in
  eliminate_loop candidate_words cands game found contra.

(** ** choose_guess, solved_game, report_solution *)

(** [max(list(buckets.keys()))] raises [ValueError] on no key; [buckets] is
    a [defaultdict(list)], so a missing key would read as [[]], and [[0]] of
    an empty list raises [IndexError]. *)
Definition choose_guess (buckets : buckets) : result string :=
  match dict_keys buckets with
  | [] => Raise ValueError
  | k :: ks =>
      let choose := fold_left Nat.max ks k in
      match dict_get choose buckets with
      | Some (word :: _) => Return word
      | _ => Raise IndexError
      end
  end.

Definition solved_game (board : list string) : bool :=
  forallb (fun i => (0 <? String.length i)%nat) board.

(** The dict [h] that [report_solution] and [compute_wordle] return. *)
Record GameResult : Set := {
  h_board : string;
  h_attempts : Z;
  h_solved : bool
}.

(** [report_solution] without its printing. *)
Definition report_solution (board : list string) (guess_attempt : Z)
  : GameResult :=
  {| h_board := String.concat "" board;
     h_attempts := guess_attempt;
     h_solved := true |}.

(** ** compute_wordle *)

(** What a run of the solver acts on: the dict [cands] it was handed, which
    [eliminate] mutates, and the history of its [play_wordle] calls, each
    with the value of [wordle_guess_attempt] at the call (the history is not
    a variable of the code; it records which guesses were evaluated). *)
Record world : Type := {
  w_cands : pool;
  w_evaluated : list (Z * string)
}.

Definition M (A : Type) : Type := world -> result A * world.

#[local] Instance M_ret : MRet M := fun A a w => (Return a, w).
#[local] Instance M_bind : MBind M := fun A B f m w =>
  match m w with
  | (Return a, w') => f a w'
  | (Raise e, w') => (Raise e, w')
  end.

Definition lift {A} (r : result A) : M A := fun w => (r, w).

Definition read_cands : M pool := fun w => (Return (w_cands w), w).

Definition call_play_wordle (attempt : Z) (guess word_of_the_day : string)
  : M (list string * gset ascii) :=
  fun w => (Return (play_wordle guess word_of_the_day),
            {| w_cands := w_cands w;
               w_evaluated := w_evaluated w ++ [(attempt, guess)] |}).

Definition call_eliminate (game : list string) (found contra : gset ascii)
  : M unit :=
  fun w => let '(r, cands) := eliminate (w_cands w) game found contra in
           (r, {| w_cands := cands; w_evaluated := w_evaluated w |}).

Section notebook_globals.
(** The module-level variable [usage_vowels] (set by the cell
    [possible_vowels, usage_vowels = most_shared(data, has_vowels=True)]).
    [break_ties] reads this global, not its own parameter [usage]. *)
Variable usage_vowels : usage_table.

(** The loop of [break_ties]: for each key of the dict, the current word
    list is scored, sorted and stored back under the same key. *)
Definition break_ties (cands : buckets) (usage : usage_table) : buckets :=
  let uv := rank_weights usage_vowels in
  fold_left
    (fun cands bucket =>
       match dict_get bucket cands with
       | Some words => dict_set bucket (sorted_reverse (score uv) words) cands
       | None => cands
       end)
    (dict_keys cands) cands.

Definition feature_bucket (cands : pool) (usage : usage_table)
    (has_vowels : bool) : buckets :=
  let cset := if has_vowels then VOWELS else CONSONANTS in
  let buckets :=
    fold_left
      (fun buckets '(word, wordset) =>
         bucket_append (len (wordset ∩ cset)) word buckets)
      cands [] in
  break_ties buckets usage.

(** One pass through the body of [while wordle_guess_attempt <= max_tries].
    [inl h]: the function returned [h]; [inr (attempt, board)]: the body
    ran to its end with these values of [wordle_guess_attempt] and
    [board].  The parameter [usage_vowels] of [compute_wordle] hides the
    global of the same name here, as it does in the source; the printing
    under [report] is left out. *)
Definition loop_body (example_wordle_word : string)
    (usage_vowels usage_cons : usage_table) (wordle_guess_attempt : Z)
  : M (GameResult + Z * list string) :=
  (* (1) Find vowels *)
  cands ← read_cands;
  let vowel_bucket := feature_bucket cands usage_vowels true in
  guess_word ← lift (choose_guess vowel_bucket);
  '(board, found) ←
    call_play_wordle wordle_guess_attempt guess_word example_wordle_word;
  let contra := set_of guess_word ∖ found in
  if solved_game board
  then mret (inl (report_solution board wordle_guess_attempt))
  else
    call_eliminate board found contra;;
    let wordle_guess_attempt := (wordle_guess_attempt + 1)%Z in
    (* (2) Find consonants *)
    cands ← read_cands;
    let conson_bucket := feature_bucket cands usage_vowels false in
    guess_word ← lift (choose_guess conson_bucket);
    '(board, found) ←
      call_play_wordle wordle_guess_attempt guess_word example_wordle_word;
    let contra := set_of guess_word ∖ found in
    if solved_game board
    then mret (inl (report_solution board wordle_guess_attempt))
    else
      call_eliminate board found contra;;
      let wordle_guess_attempt := (wordle_guess_attempt + 1)%Z in
      mret (inr (wordle_guess_attempt, board)).

(** The [while] loop and the code after it.  [board] is [None] as long as
    the local variable was never assigned.  [fuel] bounds the number of
    passes; [None] means it ran out. *)
Fixpoint compute_wordle_loop (fuel : nat) (example_wordle_word : string)
    (usage_vowels usage_cons : usage_table) (max_tries : Z)
    (wordle_guess_attempt : Z) (board : option (list string)) (w : world)
  : option (result GameResult * world) :=
  if (wordle_guess_attempt <=? max_tries)%Z then
    match fuel with
    | O => None
    | S fuel' =>
        match loop_body example_wordle_word usage_vowels usage_cons
                        wordle_guess_attempt w with
        | (Raise e, w') => Some (Raise e, w')
        | (Return (inl h), w') => Some (Return h, w')
        | (Return (inr (attempt', board')), w') =>
            compute_wordle_loop fuel' example_wordle_word usage_vowels
                                usage_cons max_tries attempt' (Some board') w'
        end
    end
  else
    match board with
    | None => Some (Raise UnboundLocalError, w)
    | Some board =>
        Some (Return {| h_board := String.concat "" board;
                        h_attempts := wordle_guess_attempt;
                        h_solved := false |}, w)
    end.

(** [compute_wordle]; every pass adds 2 to the counter, so [max_tries]
    passes of fuel are more than the loop can use. *)
Definition compute_wordle (cands : pool) (example_wordle_word : string)
    (usage_vowels usage_cons : usage_table) (max_tries : Z)
  : option (result GameResult * world) :=
  let wordle_guess_attempt := 1%Z in
  compute_wordle_loop (Z.to_nat max_tries) example_wordle_word usage_vowels
                      usage_cons max_tries wordle_guess_attempt None
                      {| w_cands := cands; w_evaluated := [] |}.
End notebook_globals.

(** ** Data of the notebook's cells *)

(** [test_cands] of the cell that tests the elimination step. *)
Definition test_cands : pool :=
  [ ("cigar", set_of "acgir");
    ("rebut", set_of "bertu");
    ("siste", set_of "iste");
    ("humph", set_of "hmpu") ].

Definition test_game : list string := [""; "i"; ""; ""; ""].
Definition test_found : gset ascii := set_of "i".
Definition test_contra : gset ascii := set_of "cigar" ∖ test_found.

(** [usage_vowels] as the notebook prints it. *)
Definition notebook_usage_vowels : usage_table :=
  [ ("e"%char, 1056); ("a"%char, 909); ("o"%char, 673);
    ("i"%char, 647); ("u"%char, 457); ("y"%char, 417) ]%nat.

(** A small dictionary for runs of the whole solver. *)
Definition small_data : list string := ["cigar"; "rebut"; "siste"; "humph"].

(** ** Predicates used in the statements *)

(** The three tests of [eliminate] on one entry of the pool, as the code
    makes them: [true] when the entry stays. *)
Definition survives (game : list string) (found contra : gset ascii)
    (entry : string * gset ascii) : bool :=
  (len (snd entry ∩ found) =? len found)%nat
  && negb (0 <? len (snd entry ∩ contra))%nat
  && match shared_position (fst entry) game 0 with
     | Return false => true
     | _ => false
     end.

(** The three rules in the words of the specification: the word [w] with
    letter set [S] is kept when it has every found letter, no contra letter,
    and the board's letter at every non-empty slot. *)
Definition spec_keeps (board : list string) (found contra : gset ascii)
    (w : string) (S : gset ascii) : Prop :=
  size (S ∩ found) = size found
  /\ size (S ∩ contra) = 0%nat
  /\ forall i slot, board !! i = Some slot -> slot <> "" ->
       exists c, String.get i w = Some c /\ slot = letter c.

(** What [break_ties] does to one entry of the bucket dict. *)
Definition sort_bucket (uv : dict ascii nat) (entry : nat * list string)
  : nat * list string :=
  (fst entry, sorted_reverse (score uv) (snd entry)).

(** The letter class that the flag [has_vowels] selects. *)
Definition letter_class (has_vowels : bool) : gset ascii :=
  if has_vowels then VOWELS else CONSONANTS.

(** [len(wordset & cset)] for an entry of the pool. *)
Definition overlap (cset : gset ascii) (entry : string * gset ascii) : nat :=
  len (snd entry ∩ cset).

(** The words of the pool whose overlap with [cset] is [k], in pool order. *)
Definition words_with_overlap (cset : gset ascii) (k : nat) (cands : pool)
  : list string :=
  map fst (List.filter (fun e => overlap cset e =? k)%nat cands).

(** The first loop of [feature_bucket], from the buckets [b0] on. *)
Definition fill_buckets (cset : gset ascii) (cands : pool) (b0 : buckets)
  : buckets :=
  fold_left
    (fun buckets '(word, wordset) =>
       bucket_append (len (wordset ∩ cset)) word buckets)
    cands b0.

(** All the words held by a bucket dict. *)
Definition bucket_words (b : buckets) : list string := concat (map snd b).

(** No slot of the board lies past the end of a word of the pool. *)
Definition board_fits (game : list string) (cands : pool) : Prop :=
  Forall (fun w => (length game <= String.length w)%nat) (dict_keys cands).

(** ** most_shared *)

(** [letters[letter] += 1] on a [defaultdict(int)]: a letter not yet counted
    enters at the end with the count 1. *)
Definition dict_incr (letter : ascii) (letters : dict ascii nat)
  : dict ascii nat :=
  match dict_get letter letters with
  | Some n => dict_set letter (n + 1)%nat letters
  | None => dict_set letter 1%nat letters
  end.

Section most_shared.
(** The order in which a [for] loop receives the elements of a set.  Python
    fixes none, so it is a parameter; [set_iter_once] is what the language
    does promise. *)
Variable set_iter : gset ascii -> list ascii.

(** The body of [for word in data]. *)
Definition most_shared_word (shared : gset ascii)
    (acc : list (string * nat) * dict ascii nat) (word : string)
  : list (string * nat) * dict ascii nat :=
  let '(possible, letters) := acc in
  let wordset := set_of word in
  let overlap := len (wordset ∩ shared) in
  let possible :=
    if (0 <? overlap)%nat then possible ++ [(word, overlap)] else possible in
  let letters :=
    fold_left (fun letters letter => dict_incr letter letters)
              (set_iter (wordset ∩ shared)) letters in
  (possible, letters).

Definition most_shared (data : list string) (has_vowels : bool)
  : list (string * nat) * usage_table :=
  let shared := if has_vowels then VOWELS else CONSONANTS in
  let '(possible, letters) :=
    fold_left (most_shared_word shared) data ([], []) in
  let letters :=
    fold_left (fun d kv => dict_set (fst kv) (snd kv) d)
              (sorted_reverse snd letters) [] in
  let possible := sorted_reverse snd possible in
  (possible, letters).
End most_shared.

(** Iterating over a set yields each of its elements once. *)
Definition set_iter_once (set_iter : gset ascii -> list ascii) : Prop :=
  forall s, NoDup (set_iter s) /\ forall x, x ∈ set_iter s <-> x ∈ s.

(** The number of words of [data] that hold the letter [l]. *)
Definition words_with (l : ascii) (data : list string) : nat :=
  length (List.filter (fun w => bool_decide (l ∈ set_of w)) data).

(** ** More predicates used in the statements *)

(** The two words carry the same letter wherever both have one. *)
Definition agree_on_common (guess secret : string) : Prop :=
  forall i g s,
    String.get i guess = Some g -> String.get i secret = Some s -> g = s.

(** The entries of a history are numbered [a], [a + 1], ... in order. *)
Fixpoint counts_from (a : Z) (evaluated : list (Z * string)) : Prop :=
  match evaluated with
  | [] => True
  | e :: rest => fst e = a /\ counts_from (a + 1)%Z rest
  end.

(** A pool fit for a game on [secret]: each key once, the secret among them
    with its letter set, every word as long as the secret. *)
Definition game_pool (secret : string) (cands : pool) : Prop :=
  dict_wf cands
  /\ (secret, set_of secret) ∈ cands
  /\ Forall (fun w => String.length w = String.length secret) (dict_keys cands).

(** The entry passes the two set tests of [eliminate] and its word is then
    indexed past its end by step (2). *)
Definition raises_on (game : list string) (found contra : gset ascii)
    (entry : string * gset ascii) : bool :=
  (len (snd entry ∩ found) =? len found)%nat
  && negb (0 <? len (snd entry ∩ contra))%nat
  && match shared_position (fst entry) game 0 with
     | Raise _ => true
     | Return _ => false
     end.

(** Slot [i] of the board is not empty and lies past the end of [w], and
    [w] carries the board's letter at every non-empty slot before it. *)
Definition slot_past_end (w : string) (game : list string) (i : nat) : Prop :=
  exists slot,
    game !! i = Some slot /\ slot <> "" /\ (String.length w <= i)%nat
    /\ forall j slot', (j < i)%nat -> game !! j = Some slot' -> slot' <> "" ->
         exists c, String.get j w = Some c /\ slot' = letter c.

(** The board that [compute_wordle] holds after the guesses [evaluated],
    having held [board] before them: the board of the last guess. *)
Definition board_after (word : string) (board : option (list string))
    (evaluated : list (Z * string)) : option (list string) :=
  match last evaluated with
  | Some e => Some (fst (play_wordle (snd e) word))
  | None => board
  end.

(** The number that [most_shared] counts for the letter [l]: the words
    holding it, when it belongs to the class. *)
Definition letter_count (shared : gset ascii) (l : ascii) (data : list string)
  : nat :=
  if decide (l ∈ shared) then words_with l data else 0%nat.

(** [len(set(word) & shared)] *)
Definition word_overlap (shared : gset ascii) (word : string) : nat :=
  len (set_of word ∩ shared).

(** ** Dicts *)

Section dict_facts.
Context {K V : Type} `{EqDecision K}.
Implicit Types (d : dict K V) (k : K) (v : V).

Lemma dict_get_Some_elem_of d k v :
  dict_get k d = Some v -> (k, v) ∈ d.
Proof.
  induction d as [|[k' v'] d IH]; simpl; [discriminate|].
  destruct (decide (k = k')) as [->|Hne].
  - intros [= ->]. left.
  - intros Hget. right. auto.
Qed.

Lemma dict_get_None_keys d k :
  dict_get k d = None <-> k ∉ dict_keys d.
Proof.
  induction d as [|[k' v'] d IH]; simpl.
  - split; [intros _; apply not_elem_of_nil | reflexivity].
  - rewrite not_elem_of_cons. destruct (decide (k = k')) as [->|Hne].
    + split; [discriminate | intros [Hk _]; congruence].
    + rewrite IH. tauto.
Qed.

Lemma dict_get_app_r d1 d2 k :
  k ∉ dict_keys d1 -> dict_get k (d1 ++ d2) = dict_get k d2.
Proof.
  induction d1 as [|[k' v'] d1 IH]; simpl; [reflexivity|].
  rewrite not_elem_of_cons. intros [Hne Hk].
  destruct (decide (k = k')); [contradiction | auto].
Qed.

Lemma dict_get_elem_of d k v :
  dict_wf d -> (k, v) ∈ d -> dict_get k d = Some v.
Proof.
  unfold dict_wf. induction d as [|[k' v'] d IH]; simpl.
  - intros _ Hin. inversion Hin.
  - rewrite NoDup_cons. intros [Hk' Hnd] Hin.
    apply elem_of_cons in Hin as [[= -> ->]|Hin].
    + destruct (decide (k' = k')); [reflexivity | contradiction].
    + destruct (decide (k = k')) as [->|Hne]; [|auto].
      exfalso. apply Hk'. unfold dict_keys.
      apply list_elem_of_In, in_map_iff. exists (k', v).
      split; [reflexivity | by apply list_elem_of_In].
Qed.

Lemma dict_pop_app_r d1 d2 k :
  k ∉ dict_keys d1 -> dict_pop k (d1 ++ d2) = d1 ++ dict_pop k d2.
Proof.
  induction d1 as [|[k' v'] d1 IH]; simpl; [reflexivity|].
  rewrite not_elem_of_cons. intros [Hne Hk].
  destruct (decide (k = k')); [contradiction|]. by rewrite IH.
Qed.

Lemma dict_pop_sublist d k : sublist (dict_pop k d) d.
Proof.
  induction d as [|[k' v'] d IH]; simpl; [constructor|].
  destruct (decide (k = k')).
  - by apply sublist_cons.
  - by apply sublist_skip.
Qed.

Lemma dict_set_app_r d1 d2 k v :
  k ∉ dict_keys d1 -> dict_set k v (d1 ++ d2) = d1 ++ dict_set k v d2.
Proof.
  induction d1 as [|[k' v'] d1 IH]; simpl; [reflexivity|].
  rewrite not_elem_of_cons. intros [Hne Hk].
  destruct (decide (k = k')); [contradiction|]. by rewrite IH.
Qed.

Lemma dict_keys_app d1 d2 :
  dict_keys (d1 ++ d2) = dict_keys d1 ++ dict_keys d2.
Proof. apply map_app. Qed.

Lemma dict_keys_sublist d1 d2 :
  sublist d1 d2 -> sublist (dict_keys d1) (dict_keys d2).
Proof.
  induction 1 as [|[k v] ? ? ? IH|[k v] ? ? ? IH]; simpl;
    [constructor | by apply sublist_skip | by apply sublist_cons].
Qed.

Lemma elem_of_dict_keys d k v : (k, v) ∈ d -> k ∈ dict_keys d.
Proof.
  intros Hin. apply list_elem_of_In, in_map_iff. exists (k, v).
  split; [reflexivity | by apply list_elem_of_In].
Qed.

Lemma dict_get_Some_keys d k v : dict_get k d = Some v -> k ∈ dict_keys d.
Proof. intros Hget. eapply elem_of_dict_keys, dict_get_Some_elem_of, Hget. Qed.

Lemma dict_set_keys_elem_of d k v x :
  x ∈ dict_keys (dict_set k v d) -> x = k \/ x ∈ dict_keys d.
Proof.
  induction d as [|[k' v'] d IH]; simpl.
  - intros Hin. apply list_elem_of_singleton in Hin. by left.
  - destruct (decide (k = k')); simpl; [by right|].
    rewrite !elem_of_cons. intros [->|Hin]; [right; by left|].
    destruct (IH Hin) as [->|Hx]; [by left | right; by right].
Qed.
End dict_facts.

(** ** Strings and letter sets *)

Lemma string_get_lt (w : string) (i : nat) :
  (i < String.length w)%nat -> exists c, String.get i w = Some c.
Proof.
  revert i. induction w as [|a w IH]; simpl; intros i Hi; [lia|].
  destruct i as [|i]; [eauto|]. apply IH. lia.
Qed.

Lemma string_get_Some_lt (w : string) (i : nat) (c : ascii) :
  String.get i w = Some c -> (i < String.length w)%nat.
Proof.
  revert i. induction w as [|a w IH]; simpl; intros i; [discriminate|].
  destruct i as [|i]; [lia|]. intros Hget. apply IH in Hget. lia.
Qed.

Lemma slot_empty (slot : string) :
  (0 <? String.length slot)%nat = false <-> slot = "".
Proof.
  destruct slot; simpl; split; try reflexivity; try discriminate.
Qed.

Lemma letter_eqb (c : ascii) (slot : string) :
  String.eqb (letter c) slot = true <-> slot = letter c.
Proof. rewrite String.eqb_eq. split; congruence. Qed.

Lemma elem_of_set_of (w : string) (c : ascii) :
  c ∈ set_of w <-> exists i, String.get i w = Some c.
Proof.
  unfold set_of. rewrite elem_of_list_to_set.
  induction w as [|a w IH]; simpl.
  - split; [intros Hin; inversion Hin | intros [i Hi]; discriminate].
  - rewrite elem_of_cons, IH. split.
    + intros [->|[i Hi]]; [by exists 0%nat | by exists (S i)].
    + intros [[|i] Hi]; simpl in Hi; [left; congruence | right; eauto].
Qed.

(** ** eliminate *)

Lemma shared_position_fits (w : string) (game : list string) (i : nat) :
  (length game + i <= String.length w)%nat ->
  exists b, shared_position w game i = Return b.
Proof.
  revert i. induction game as [|slot game IH]; simpl; intros i Hlen; [eauto|].
  destruct (0 <? String.length slot)%nat.
  - destruct (string_get_lt w i) as [c ->]; [lia|].
    destruct (negb _); [eauto|]. apply IH. lia.
  - apply IH. lia.
Qed.

Lemma shared_position_false (w : string) (game : list string) (i : nat) :
  shared_position w game i = Return false <->
  forall j slot, game !! j = Some slot -> slot <> "" ->
    exists c, String.get (i + j) w = Some c /\ slot = letter c.
Proof.
  revert i. induction game as [|slot game IH]; cbn [shared_position]; intros i.
  - split; [intros _ j slot Hj; discriminate | reflexivity].
  - assert (Hshift : (forall j s, game !! j = Some s -> s <> "" ->
                        exists c, String.get (i + S j) w = Some c /\ s = letter c)
                     <-> shared_position w game (S i) = Return false).
    { rewrite IH. split; intros Hall j s Hj Hs;
        specialize (Hall j s Hj Hs);
        [replace (S i + j)%nat with (i + S j)%nat by lia
        |replace (i + S j)%nat with (S i + j)%nat by lia]; exact Hall. }
    destruct (0 <? String.length slot)%nat eqn:Hslot.
    + assert (Hne : slot <> "") by (intros ->; discriminate).
      destruct (String.get i w) as [c|] eqn:Hget.
      * destruct (String.eqb (letter c) slot) eqn:Heq; cbn [negb].
        -- apply letter_eqb in Heq. rewrite <- Hshift. split.
           ++ intros Hall [|j] s Hj Hs; simpl in Hj; [|eauto].
              injection Hj as <-. exists c. by rewrite Nat.add_0_r.
           ++ intros Hall j s Hj Hs. apply (Hall (S j) s Hj Hs).
        -- split; [discriminate|]. intros Hall.
           destruct (Hall 0%nat slot eq_refl Hne) as (c' & Hc' & ->).
           rewrite Nat.add_0_r, Hget in Hc'. injection Hc' as <-.
           unfold letter in Heq. rewrite String.eqb_refl in Heq. discriminate.
      * split; [discriminate|]. intros Hall.
        destruct (Hall 0%nat slot eq_refl Hne) as (c' & Hc' & _).
        rewrite Nat.add_0_r, Hget in Hc'. discriminate.
    + apply slot_empty in Hslot as ->. rewrite <- Hshift. split.
      * intros Hall [|j] s Hj Hs; simpl in Hj; [|eauto]. congruence.
      * intros Hall j s Hj Hs. apply (Hall (S j) s Hj Hs).
Qed.

Lemma survives_spec_keeps game found contra (w : string) (S : gset ascii) :
  survives game found contra (w, S) = true <-> spec_keeps game found contra w S.
Proof.
  unfold survives, spec_keeps, len; simpl.
  rewrite !andb_true_iff, negb_true_iff, Nat.eqb_eq, Nat.ltb_ge.
  rewrite <- (shared_position_false w game 0).
  destruct (shared_position w game 0) as [[|]|e];
    (split; [intros [[H1 H2] H3] | intros (H1 & H2 & H3)]);
    try discriminate; repeat split; try lia; auto.
Qed.

(** The loop on a well-formed dict whose words are long enough for the
    board: every word of the snapshot is still in the dict when its turn
    comes, and what is left at the end is the filtered dict, in order. *)
Lemma eliminate_loop_filter (pre suf : pool) game found contra :
  dict_wf (pre ++ suf) ->
  board_fits game suf ->
  eliminate_loop (dict_keys suf) (pre ++ suf) game found contra
  = (Return tt, pre ++ List.filter (survives game found contra) suf).
Proof.
  unfold dict_wf, board_fits.
  revert pre. induction suf as [|[w S] suf IH]; intros pre Hwf Hfit; simpl.
  - reflexivity.
  - rewrite dict_keys_app in Hwf. simpl in Hwf, Hfit.
    apply NoDup_app in Hwf as (Hpre & Hdisj & Hsuf).
    apply NoDup_cons in Hsuf as [Hw Hsuf].
    apply Forall_cons in Hfit as [Hlen Hfit].
    assert (Hwpre : w ∉ dict_keys pre).
    { intros Hin. apply (Hdisj w Hin). left. }
    assert (Hwf' : forall pre', dict_keys pre' = dict_keys pre ->
                                NoDup (dict_keys (pre' ++ suf))).
    { intros pre' Hk. rewrite dict_keys_app, Hk. apply NoDup_app.
      repeat split; [done| |done].
      intros x Hx Hx'. apply (Hdisj x Hx). by right. }
    assert (Hwf'' : NoDup (dict_keys ((pre ++ [(w, S)]) ++ suf))).
    { rewrite <- app_assoc. simpl. rewrite dict_keys_app. simpl.
      apply NoDup_app. repeat split; [done|done|]. by apply NoDup_cons. }
    rewrite dict_get_app_r by done. simpl.
    destruct (decide (w = w)); [|contradiction].
    rewrite dict_pop_app_r by done. simpl.
    destruct (decide (w = w)); [|contradiction].
    replace (survives game found contra (w, S)) with
      ((len (S ∩ found) =? len found)%nat
       && negb (0 <? len (S ∩ contra))%nat
       && match shared_position w game 0 with
          | Return false => true
          | _ => false
          end) by reflexivity.
    destruct (len (S ∩ found) =? len found)%nat; simpl.
    2:{ apply IH; [by apply Hwf' | exact Hfit]. }
    destruct (0 <? len (S ∩ contra))%nat; simpl.
    { apply IH; [by apply Hwf' | exact Hfit]. }
    destruct (shared_position_fits w game 0) as [b Hb]; [lia|].
    rewrite Hb. destruct b.
    + apply IH; [by apply Hwf' | exact Hfit].
    + specialize (IH (pre ++ [(w, S)]) Hwf'' Hfit).
      rewrite <- !app_assoc in IH. simpl in IH. exact IH.
Qed.

Lemma eliminate_filter (cands : pool) game found contra :
  dict_wf cands ->
  board_fits game cands ->
  eliminate cands game found contra
  = (Return tt, List.filter (survives game found contra) cands).
Proof.
  intros Hwf Hfit. unfold eliminate.
  apply (eliminate_loop_filter [] cands game found contra Hwf Hfit).
Qed.

(** Past the end of a word the code raises: a board slot that is not empty
    and lies beyond a word that passed the two set tests ends the call with
    [IndexError], the dict being left as it was at that moment. *)
Example eliminate_short_word :
  eliminate [("ab", set_of "ab"); ("cd", set_of "cd")] [""; ""; "c"]
            (set_of "b") ∅
  = (Raise IndexError, [("ab", set_of "ab"); ("cd", set_of "cd")]).
Proof. reflexivity. Qed.

(** Whatever the outcome, the loop only removes entries. *)
Lemma eliminate_loop_sublist candidate_words (cands : pool) game found contra :
  sublist (snd (eliminate_loop candidate_words cands game found contra)) cands.
Proof.
  revert cands. induction candidate_words as [|w ws IH]; intros cands; simpl.
  - reflexivity.
  - assert (Hpop : sublist
      (snd (eliminate_loop ws (dict_pop w cands) game found contra)) cands).
    { etransitivity; [apply IH | apply dict_pop_sublist]. }
    destruct (dict_get w cands) as [S|]; [|reflexivity].
    destruct (negb _); [exact Hpop|].
    destruct (0 <? _)%nat; [exact Hpop|].
    destruct (shared_position w game 0) as [[|]|e];
      [exact Hpop | apply IH | reflexivity].
Qed.

(** ** play_wordle *)

Lemma zip_board_length (word guess : string) :
  length (zip_board word guess)
  = Nat.min (String.length guess) (String.length word).
Proof.
  revert guess. induction word as [|a word IH]; intros [|g guess]; simpl;
    try reflexivity.
  by rewrite IH.
Qed.

Lemma zip_board_lookup (word guess : string) (i : nat) (s g : ascii) :
  String.get i word = Some s -> String.get i guess = Some g ->
  zip_board word guess !! i = Some (if Ascii.eqb s g then letter g else "").
Proof.
  revert guess i. induction word as [|a word IH]; intros [|b guess] i;
    simpl; try discriminate.
  destruct i as [|i]; simpl.
  - by intros [= ->] [= ->].
  - apply IH.
Qed.

Lemma zip_board_slot (word guess : string) (i : nat) (slot : string) :
  zip_board word guess !! i = Some slot -> slot <> "" ->
  exists c, String.get i word = Some c /\ String.get i guess = Some c
            /\ slot = letter c.
Proof.
  revert guess i. induction word as [|a word IH]; intros [|b guess] i;
    simpl; try discriminate.
  destruct i as [|i]; simpl.
  - intros [= <-] Hne. destruct (Ascii.eqb a b) eqn:Hab; [|contradiction].
    apply Ascii.eqb_eq in Hab as ->. eauto.
  - apply IH.
Qed.

Lemma found_in_secret (G S : gset ascii) : S ∩ (G ∩ S) = G ∩ S.
Proof.
  apply set_eq. intros x. rewrite !elem_of_intersection. tauto.
Qed.

Lemma contra_not_in_secret (G S : gset ascii) : S ∩ (G ∖ (G ∩ S)) = ∅.
Proof.
  apply set_eq. intros x.
  rewrite elem_of_intersection, elem_of_difference, elem_of_intersection.
  split; [tauto|]. intros Hx. by apply not_elem_of_empty in Hx.
Qed.

Lemma list_filter_sublist {A} (f : A -> bool) (l : list A) :
  sublist (List.filter f l) l.
Proof.
  induction l as [|x l IH]; simpl; [constructor|].
  destruct (f x); [by apply sublist_skip | by apply sublist_cons].
Qed.

(** The feedback on a guess never speaks against the secret. *)
Lemma secret_spec_keeps (guess secret : string) :
  let found := snd (play_wordle guess secret) in
  spec_keeps (fst (play_wordle guess secret)) found (set_of guess ∖ found)
             secret (set_of secret).
Proof.
  unfold play_wordle, spec_keeps; simpl. repeat split.
  - by rewrite found_in_secret.
  - rewrite contra_not_in_secret. apply size_empty.
  - intros i slot Hi Hne.
    destruct (zip_board_slot _ _ _ _ Hi Hne) as (c & Hs & _ & ->). eauto.
Qed.

(** In a pool of words of one length that holds the secret, the board of
    any guess fits every word. *)
Lemma fixed_length_board_fits (cands : pool) (guess secret : string) :
  Forall (fun w => String.length w = String.length secret) (dict_keys cands) ->
  board_fits (fst (play_wordle guess secret)) cands.
Proof.
  unfold board_fits, play_wordle. cbn [fst]. rewrite zip_board_length.
  intros Hlen. eapply Forall_impl; [exact Hlen|].
  intros w Hw. simpl in Hw. lia.
Qed.

(** The outputs printed in the notebook. *)
Example notebook_aeiou :
  play_wordle "aeiou" "onset" = ([""; ""; ""; ""; ""], set_of "eo").
Proof. reflexivity. Qed.

Example notebook_audio :
  play_wordle "audio" "onset" = ([""; ""; ""; ""; ""], set_of "o")
  /\ set_of "audio" ∖ snd (play_wordle "audio" "onset") = set_of "adiu".
Proof. split; reflexivity. Qed.

(** ** Closing goals on concrete data by evaluation *)

Ltac by_evaluation :=
  match goal with
  | |- ?P => apply (bool_decide_unpack P); vm_compute; exact I
  end.

(** ** The claims on eliminate *)

(** C1 (elimination soundness): in a pool that holds the secret with its
    letter set, after the feedback [(board, found)] of any guess against the
    secret and [contra = set(guess) - found], [eliminate] returns and the
    secret is still in the pool.  The words of the pool are as long as the
    board, as in a fixed-length dictionary; letters repeated in the secret
    or in the guess do no harm. *)
Theorem eliminate_keeps_secret (cands : pool) (guess secret : string)
    (board : list string) (found contra : gset ascii) :
  dict_wf cands ->
  (secret, set_of secret) ∈ cands ->
  play_wordle guess secret = (board, found) ->
  contra = set_of guess ∖ found ->
  board_fits board cands ->
  exists cands',
    eliminate cands board found contra = (Return tt, cands')
    /\ (secret, set_of secret) ∈ cands'
    /\ secret ∈ dict_keys cands'.
Proof.
  intros Hwf Hin Hplay -> Hfit.
  exists (List.filter (survives board found (set_of guess ∖ found)) cands).
  split; [by apply eliminate_filter|].
  assert (Hkept : (secret, set_of secret)
            ∈ List.filter (survives board found (set_of guess ∖ found)) cands).
  { apply list_elem_of_In, filter_In. split; [by apply list_elem_of_In|].
    apply survives_spec_keeps.
    pose proof (secret_spec_keeps guess secret) as Hkeeps.
    rewrite Hplay in Hkeeps. exact Hkeeps. }
  split; [exact Hkept|].
  apply list_elem_of_In, in_map_iff. exists (secret, set_of secret).
  split; [reflexivity | by apply list_elem_of_In].
Qed.

Lemma eliminate_keeps_secret_witness :
  exists cands',
    eliminate test_cands [""; "i"; ""; ""; ""] (set_of "i") (set_of "acgr")
    = (Return tt, cands')
    /\ ("siste", set_of "siste") ∈ cands'
    /\ "siste" ∈ dict_keys cands'.
Proof.
  apply (eliminate_keeps_secret test_cands "cigar" "siste").
  - by_evaluation.
  - by_evaluation.
  - reflexivity.
  - reflexivity.
  - by_evaluation.
Defined.

(** C2: on a pool whose words are as long as the board, [eliminate] returns
    the pool reduced to exactly the entries [(w, S)] with
    [|S & found| = |found|], [|S & contra| = 0] and [w[i] = board[i]] at
    every non-empty slot, in their former order; on the pool of the
    notebook's elimination test only ["siste"] is left. *)
Theorem eliminate_keeps_exactly :
  (forall (cands : pool) (board : list string) (found contra : gset ascii),
      dict_wf cands ->
      board_fits board cands ->
      exists cands',
        eliminate cands board found contra = (Return tt, cands')
        /\ sublist cands' cands
        /\ forall w S, (w, S) ∈ cands'
                       <-> (w, S) ∈ cands /\ spec_keeps board found contra w S)
  /\ test_contra = set_of "acgr"
  /\ eliminate test_cands [""; "i"; ""; ""; ""] (set_of "i") test_contra
     = (Return tt, [("siste", set_of "iste")]).
Proof.
  split; [|split; reflexivity].
  intros cands board found contra Hwf Hfit.
  exists (List.filter (survives board found contra) cands).
  split; [by apply eliminate_filter|]. split.
  - apply list_filter_sublist.
  - intros w S. rewrite <- survives_spec_keeps, !list_elem_of_In.
    apply filter_In.
Qed.

Lemma eliminate_keeps_exactly_witness :
  exists cands',
    eliminate test_cands test_game test_found test_contra = (Return tt, cands')
    /\ sublist cands' test_cands
    /\ forall w S, (w, S) ∈ cands'
         <-> (w, S) ∈ test_cands /\ spec_keeps test_game test_found test_contra w S.
Proof.
  apply (proj1 eliminate_keeps_exactly test_cands test_game test_found
               test_contra).
  - by_evaluation.
  - by_evaluation.
Defined.

(** C7 (monotonic narrowing): whatever its arguments and its outcome,
    [eliminate] leaves a dict that is the given one with entries removed:
    no more entries, no new key; so the pool never grows along a sequence
    of eliminations. *)
Theorem eliminate_narrows (cands : pool) (game : list string)
    (found contra : gset ascii) :
  let cands' := snd (eliminate cands game found contra) in
  (length cands' <= length cands)%nat
  /\ dict_keys cands' ⊆ dict_keys cands
  /\ sublist cands' cands
  /\ forall feedbacks : list (list string * gset ascii * gset ascii),
       let cands'' :=
         fold_left (fun c '(game, found, contra) =>
                      snd (eliminate c game found contra)) feedbacks cands in
       (length cands'' <= length cands)%nat
       /\ dict_keys cands'' ⊆ dict_keys cands.
Proof.
  assert (Hsub : forall c g f x, sublist (snd (eliminate c g f x)) c).
  { intros. apply eliminate_loop_sublist. }
  assert (Hseq : forall feedbacks c,
             sublist (fold_left (fun c '(game, found, contra) =>
                        snd (eliminate c game found contra)) feedbacks c) c).
  { induction feedbacks as [|[[g f] x] fbs IH]; intros c; simpl;
      [reflexivity|]. etransitivity; [apply IH | apply Hsub]. }
  simpl. repeat split.
  - apply sublist_length, Hsub.
  - apply sublist_subseteq, dict_keys_sublist, Hsub.
  - apply Hsub.
  - apply sublist_length, Hseq.
  - apply sublist_subseteq, dict_keys_sublist, Hseq.
Qed.

(** ** The claims on play_wordle *)

(** C3: for a guess and a secret of the same length the board has that
    length, slot [i] holds [guess[i]] where it equals [secret[i]] and is
    empty elsewhere, and [found] is the set of letters that occur in both
    words, wherever and however often; ["adieu"] against ["onset"] gives the
    board [["", "", "", "e", ""]] and found [{"e"}]. *)
Theorem play_wordle_feedback :
  (forall (guess secret : string) (board : list string) (found : gset ascii),
      String.length guess = String.length secret ->
      play_wordle guess secret = (board, found) ->
      length board = String.length guess
      /\ (forall i g s,
             String.get i guess = Some g -> String.get i secret = Some s ->
             board !! i = Some (if decide (g = s) then letter g else ""))
      /\ found = set_of guess ∩ set_of secret
      /\ (forall c, c ∈ found
                    <-> (exists i, String.get i guess = Some c)
                        /\ (exists j, String.get j secret = Some c)))
  /\ play_wordle "adieu" "onset" = ([""; ""; ""; "e"; ""], {[ "e"%char ]}).
Proof.
  split; [|reflexivity].
  intros guess secret board found Hlen [= <- <-].
  split; [rewrite zip_board_length; lia|]. split; [|split; [reflexivity|]].
  - intros i g s Hg Hs. rewrite (zip_board_lookup _ _ _ _ _ Hs Hg).
    destruct (Ascii.eqb_spec s g) as [->|Hne].
    + by rewrite decide_True.
    + by rewrite decide_False by congruence.
  - intros c. by rewrite elem_of_intersection, !elem_of_set_of.
Qed.

Lemma play_wordle_feedback_witness :
  length [""; ""; ""; "e"; ""] = String.length "adieu"
  /\ (forall i g s,
         String.get i "adieu" = Some g -> String.get i "onset" = Some s ->
         [""; ""; ""; "e"; ""] !! i
         = Some (if decide (g = s) then letter g else ""))
  /\ ({[ "e"%char ]} : gset ascii) = set_of "adieu" ∩ set_of "onset"
  /\ (forall c, c ∈ ({[ "e"%char ]} : gset ascii)
                <-> (exists i, String.get i "adieu" = Some c)
                    /\ (exists j, String.get j "onset" = Some c)).
Proof.
  apply (proj1 play_wordle_feedback "adieu" "onset").
  - reflexivity.
  - reflexivity.
Defined.

(** C9, as the code has it: [play_wordle] checks no length and raises
    nothing.  On any two strings the call returns; the board has the length
    of the shorter one ([zip] stops there), slot [i] compares [guess[i]]
    with [word_of_the_day[i]], and [found] is the common letter set. *)
Theorem play_wordle_never_raises (attempt : Z) (guess secret : string)
    (w : world) :
  exists board found,
    fst (call_play_wordle attempt guess secret w) = Return (board, found)
    /\ play_wordle guess secret = (board, found)
    /\ length board = Nat.min (String.length guess) (String.length secret)
    /\ (forall i g s,
           String.get i guess = Some g -> String.get i secret = Some s ->
           board !! i = Some (if decide (g = s) then letter g else ""))
    /\ found = set_of guess ∩ set_of secret.
Proof.
  exists (zip_board secret guess), (set_of guess ∩ set_of secret).
  repeat split.
  - apply zip_board_length.
  - intros i g s Hg Hs. rewrite (zip_board_lookup _ _ _ _ _ Hs Hg).
    destruct (Ascii.eqb_spec s g) as [->|Hne].
    + by rewrite decide_True.
    + by rewrite decide_False by congruence.
Qed.

(** C9 as stated fails: a two-letter guess against a three-letter secret
    returns a feedback value. *)
Lemma play_wordle_length_mismatch_returns :
  String.length "ab" <> String.length "abc"
  /\ fst (call_play_wordle 1 "ab" "abc" {| w_cands := []; w_evaluated := [] |})
     = Return (["a"; "b"], set_of "ab")
  /\ ~ raises (fst (call_play_wordle 1 "ab" "abc"
                      {| w_cands := []; w_evaluated := [] |}))
              "InvalidWordLengthError".
Proof.
  split; [discriminate|]. split; [reflexivity|].
  intros (e & He & _). discriminate He.
Qed.

(** ** sorted(..., reverse=True) *)

Section sorting.
Context {A : Type} (key : A -> nat).

Lemma insert_reverse_perm (x : A) (l : list A) :
  Permutation (insert_reverse key x l) (x :: l).
Proof.
  induction l as [|y l IH]; simpl; [reflexivity|].
  destruct (key x <? key y)%nat; [|reflexivity].
  rewrite IH. apply perm_swap.
Qed.

Lemma sorted_reverse_perm (l : list A) : Permutation (sorted_reverse key l) l.
Proof.
  induction l as [|x l IH]; simpl; [reflexivity|].
  rewrite insert_reverse_perm. by constructor.
Qed.

Lemma insert_reverse_sorted (x : A) (l : list A) :
  StronglySorted (key_ge key) l -> StronglySorted (key_ge key) (insert_reverse key x l).
Proof.
  induction l as [|y l IH]; simpl; intros Hs.
  - repeat constructor.
  - apply StronglySorted_inv in Hs as [Hl Hy].
    destruct (key x <? key y)%nat eqn:Hxy.
    + apply Nat.ltb_lt in Hxy. constructor; [auto|].
      rewrite insert_reverse_perm. constructor; [unfold key_ge; lia | done].
    + apply Nat.ltb_ge in Hxy. constructor; [by constructor|].
      constructor; [exact Hxy|].
      eapply Forall_impl; [exact Hy|]. unfold key_ge. intros z. simpl. lia.
Qed.

Lemma sorted_reverse_sorted (l : list A) :
  StronglySorted (key_ge key) (sorted_reverse key l).
Proof.
  induction l as [|x l IH]; simpl; [constructor|].
  by apply insert_reverse_sorted.
Qed.

(** Stability: the elements of one key value come out in their input
    order. *)
Lemma insert_reverse_stable (s : nat) (x : A) (l : list A) :
  List.filter (fun y => key y =? s)%nat (insert_reverse key x l)
  = List.filter (fun y => key y =? s)%nat (x :: l).
Proof.
  induction l as [|y l IH]; [reflexivity|].
  cbn [insert_reverse]. destruct (key x <? key y)%nat eqn:Hxy; [|reflexivity].
  apply Nat.ltb_lt in Hxy. cbn [List.filter] in *. rewrite IH.
  destruct (key x =? s)%nat eqn:Hx, (key y =? s)%nat eqn:Hy; try reflexivity.
  apply Nat.eqb_eq in Hx, Hy. lia.
Qed.

Lemma sorted_reverse_stable (s : nat) (l : list A) :
  List.filter (fun y => key y =? s)%nat (sorted_reverse key l)
  = List.filter (fun y => key y =? s)%nat l.
Proof.
  induction l as [|x l IH]; [reflexivity|].
  cbn [sorted_reverse]. rewrite insert_reverse_stable.
  cbn [List.filter]. by rewrite IH.
Qed.

Lemma sorted_reverse_nil_inv (l : list A) : sorted_reverse key l = [] -> l = [].
Proof.
  intros Hnil. apply Permutation_nil. rewrite <- Hnil.
  apply sorted_reverse_perm.
Qed.
End sorting.

(** ** Rank weights *)

Lemma fold_dict_set_fresh (l d0 : dict ascii nat) :
  dict_wf (d0 ++ l) ->
  fold_left (fun uv x => dict_set (fst x) (snd x) uv) l d0 = d0 ++ l.
Proof.
  unfold dict_wf. revert d0. induction l as [|[k v] l IH]; intros d0 Hwf; simpl.
  - by rewrite app_nil_r.
  - assert (Hk : k ∉ dict_keys d0).
    { rewrite dict_keys_app in Hwf. apply NoDup_app in Hwf as (_ & Hd & _).
      intros Hin. apply (Hd k Hin). left. }
    replace (dict_set k v d0) with (d0 ++ [(k, v)]).
    + rewrite IH; rewrite <- app_assoc; [reflexivity | exact Hwf].
    + rewrite <- (app_nil_r d0) at 2. by rewrite dict_set_app_r.
Qed.

Lemma NoDup_reverse {A} (l : list A) : NoDup l -> NoDup (reverse l).
Proof. by rewrite reverse_Permutation. Qed.

Lemma enumerate_reversed_keys (usage : usage_table) :
  dict_keys (enumerate_reversed usage) = reverse (dict_keys usage).
Proof.
  unfold enumerate_reversed, dict_keys.
  change (map fst (imap (fun idx x => (fst x, idx)) (reverse usage)))
    with (fst <$> imap (fun idx (x : ascii * nat) => (fst x, idx)) (reverse usage)).
  rewrite fmap_imap.
  change (map fst usage) with (fst <$> usage). rewrite <- fmap_reverse.
  rewrite <- imap_const. apply imap_ext. reflexivity.
Qed.

Lemma rank_weights_wf (usage : usage_table) :
  dict_wf usage -> rank_weights usage = enumerate_reversed usage.
Proof.
  intros Hwf. unfold rank_weights.
  rewrite (fold_dict_set_fresh _ []); [reflexivity|].
  unfold dict_wf. simpl. rewrite enumerate_reversed_keys.
  by apply NoDup_reverse.
Qed.

(** The letter at index [i] of the table, counted from its most frequent
    end, weighs [len(usage) - 1 - i]. *)
Lemma rank_weight_lookup (usage : usage_table) (i : nat) (l : ascii) (n : nat) :
  dict_wf usage ->
  usage !! i = Some (l, n) ->
  uv_get (rank_weights usage) l = (length usage - 1 - i)%nat.
Proof.
  intros Hwf Hi. unfold uv_get.
  assert (Hlt : (i < length usage)%nat) by (eapply lookup_lt_Some; eauto).
  rewrite (dict_get_elem_of _ l (length usage - 1 - i)%nat); [reflexivity| |].
  - rewrite rank_weights_wf by done. unfold dict_wf.
    rewrite enumerate_reversed_keys. by apply NoDup_reverse.
  - rewrite rank_weights_wf by done. unfold enumerate_reversed.
    apply list_elem_of_lookup. exists (length usage - 1 - i)%nat.
    rewrite list_lookup_imap.
    assert (Hrev : reverse usage !! (length usage - 1 - i)%nat = Some (l, n)).
    { apply reverse_lookup_Some. split; [|lia].
      replace (length usage - S (length usage - 1 - i))%nat with i by lia.
      exact Hi. }
    by rewrite Hrev.
Qed.

Lemma rank_weight_absent (usage : usage_table) (l : ascii) :
  l ∉ dict_keys usage -> uv_get (rank_weights usage) l = 0%nat.
Proof.
  intros Hl. unfold uv_get.
  destruct (dict_get l (rank_weights usage)) as [v|] eqn:Hget; [|reflexivity].
  exfalso. apply Hl. clear Hl. unfold rank_weights in Hget.
  assert (Hgen : forall (items acc : dict ascii nat),
             dict_get l (fold_left (fun uv x => dict_set (fst x) (snd x) uv)
                                   items acc) = Some v ->
             l ∈ dict_keys acc \/ l ∈ dict_keys items).
  { induction items as [|[k x] items IH]; intros acc Hacc; simpl in *.
    - left. by eapply dict_get_Some_keys.
    - apply IH in Hacc as [Hin|Hin]; [|right; by right].
      apply dict_set_keys_elem_of in Hin as [->|Hin]; [right; left | by left]. }
  apply Hgen in Hget as [Hin|Hin].
  - cbn in Hin. rewrite elem_of_nil in Hin. contradiction.
  - change (l ∈ dict_keys (enumerate_reversed usage)) in Hin.
    rewrite enumerate_reversed_keys, elem_of_reverse in Hin. exact Hin.
Qed.

(** ** break_ties *)

Lemma sort_bucket_keys (uv : dict ascii nat) (b : buckets) :
  dict_keys (map (sort_bucket uv) b) = dict_keys b.
Proof.
  unfold dict_keys. rewrite map_map. apply map_ext. by intros [k ws].
Qed.

Lemma break_ties_loop_map (uv : dict ascii nat) (pre suf : buckets) :
  dict_wf (pre ++ suf) ->
  fold_left
    (fun cands bucket =>
       match dict_get bucket cands with
       | Some words => dict_set bucket (sorted_reverse (score uv) words) cands
       | None => cands
       end)
    (dict_keys suf) (map (sort_bucket uv) pre ++ suf)
  = map (sort_bucket uv) (pre ++ suf).
Proof.
  unfold dict_wf. revert pre.
  induction suf as [|[k ws] suf IH]; intros pre Hwf; simpl.
  - by rewrite !app_nil_r.
  - assert (Hk : k ∉ dict_keys (map (sort_bucket uv) pre)).
    { rewrite sort_bucket_keys. rewrite dict_keys_app in Hwf.
      apply NoDup_app in Hwf as (_ & Hd & _).
      intros Hin. apply (Hd k Hin). left. }
    rewrite dict_get_app_r by exact Hk. simpl.
    rewrite decide_True by reflexivity.
    rewrite dict_set_app_r by exact Hk. simpl.
    rewrite decide_True by reflexivity.
    specialize (IH (pre ++ [(k, ws)])).
    rewrite map_app, <- !app_assoc in IH. cbn [map app] in IH.
    change (sort_bucket uv (k, ws))
      with (k, sorted_reverse (score uv) ws) in IH.
    rewrite IH; [reflexivity | exact Hwf].
Qed.

Lemma break_ties_map (usage_vowels : usage_table) (cands : buckets)
    (usage : usage_table) :
  dict_wf cands ->
  break_ties usage_vowels cands usage
  = map (sort_bucket (rank_weights usage_vowels)) cands.
Proof.
  intros Hwf. unfold break_ties.
  apply (break_ties_loop_map (rank_weights usage_vowels) [] cands Hwf).
Qed.

Lemma sort_bucket_words (uv : dict ascii nat) (b : buckets) :
  Permutation (bucket_words (map (sort_bucket uv) b)) (bucket_words b).
Proof.
  unfold bucket_words. induction b as [|[k ws] b IH]; simpl; [reflexivity|].
  apply Permutation_app; [apply sorted_reverse_perm | exact IH].
Qed.

(** ** feature_bucket *)

Lemma bucket_append_get (k : nat) (word : string) (b : buckets) (k' : nat) :
  dict_get k' (bucket_append k word b)
  = if decide (k' = k) then Some (default [] (dict_get k b) ++ [word])
    else dict_get k' b.
Proof.
  induction b as [|[k0 ws] b IH]; simpl.
  - destruct (decide (k' = k)); reflexivity.
  - destruct (decide (k = k0)) as [->|Hk]; simpl.
    + destruct (decide (k' = k0)); reflexivity.
    + rewrite IH.
      destruct (decide (k' = k0)) as [Hk0|Hk0], (decide (k' = k)) as [Hk'|Hk'];
        try reflexivity; congruence.
Qed.

Lemma bucket_append_keys_elem_of (k : nat) (word : string) (b : buckets) x :
  x ∈ dict_keys (bucket_append k word b) -> x = k \/ x ∈ dict_keys b.
Proof.
  induction b as [|[k0 ws] b IH]; simpl.
  - intros Hin. apply list_elem_of_singleton in Hin. by left.
  - destruct (decide (k = k0)); simpl; [by right|].
    rewrite !elem_of_cons. intros [->|Hin]; [right; by left|].
    destruct (IH Hin) as [->|Hx]; [by left | right; by right].
Qed.

Lemma bucket_append_wf (k : nat) (word : string) (b : buckets) :
  dict_wf b -> dict_wf (bucket_append k word b).
Proof.
  unfold dict_wf. induction b as [|[k0 ws] b IH]; simpl; intros Hwf.
  - apply NoDup_singleton.
  - apply NoDup_cons in Hwf as [Hk0 Hwf].
    destruct (decide (k = k0)) as [->|Hne]; simpl.
    + by apply NoDup_cons.
    + apply NoDup_cons. split; [|auto].
      intros Hin. apply bucket_append_keys_elem_of in Hin as [->|Hin]; auto.
Qed.

Lemma bucket_append_words (k : nat) (word : string) (b : buckets) :
  Permutation (bucket_words (bucket_append k word b)) (bucket_words b ++ [word]).
Proof.
  unfold bucket_words. induction b as [|[k0 ws] b IH]; simpl; [reflexivity|].
  destruct (decide (k = k0)); simpl.
  - rewrite <- !app_assoc. apply Permutation_app_head, Permutation_app_comm.
  - rewrite IH. by rewrite app_assoc.
Qed.

Lemma fill_buckets_wf (cset : gset ascii) (cands : pool) (b0 : buckets) :
  dict_wf b0 -> dict_wf (fill_buckets cset cands b0).
Proof.
  unfold fill_buckets. revert b0.
  induction cands as [|[w S] cands IH]; intros b0 Hwf; simpl; [exact Hwf|].
  by apply IH, bucket_append_wf.
Qed.

Lemma fill_buckets_words (cset : gset ascii) (cands : pool) (b0 : buckets) :
  Permutation (bucket_words (fill_buckets cset cands b0))
              (bucket_words b0 ++ dict_keys cands).
Proof.
  unfold fill_buckets. revert b0.
  induction cands as [|[w S] cands IH]; intros b0; simpl.
  - by rewrite app_nil_r.
  - rewrite IH, bucket_append_words, <- app_assoc. reflexivity.
Qed.

(** After the first loop the bucket of key [k] holds the words of overlap
    [k] in pool order, behind what it held before; a key with no such word
    is left as it was. *)
Lemma fill_buckets_get (cset : gset ascii) (cands : pool) (b0 : buckets)
    (k : nat) :
  dict_get k (fill_buckets cset cands b0)
  = match words_with_overlap cset k cands with
    | [] => dict_get k b0
    | ws => Some (default [] (dict_get k b0) ++ ws)
    end.
Proof.
  unfold fill_buckets, words_with_overlap. revert b0.
  induction cands as [|[w S] cands IH]; intros b0; [reflexivity|].
  cbn [fold_left List.filter]. rewrite IH, bucket_append_get.
  unfold overlap at 2. cbn [snd].
  destruct (Nat.eqb_spec (len (S ∩ cset)) k) as [->|Hne].
  - rewrite decide_True by reflexivity. cbn [map fst default].
    destruct (map fst (List.filter _ cands)) as [|w' ws'].
    + reflexivity.
    + unfold id. by rewrite <- app_assoc.
  - rewrite decide_False by congruence. reflexivity.
Qed.

Lemma feature_bucket_map (usage_vowels : usage_table) (cands : pool)
    (usage : usage_table) (has_vowels : bool) :
  feature_bucket usage_vowels cands usage has_vowels
  = map (sort_bucket (rank_weights usage_vowels))
        (fill_buckets (letter_class has_vowels) cands []).
Proof.
  unfold feature_bucket.
  change (fold_left _ cands [])
    with (fill_buckets (letter_class has_vowels) cands []).
  apply break_ties_map, fill_buckets_wf. constructor.
Qed.

Lemma dict_get_sort_bucket (uv : dict ascii nat) (b : buckets) (k : nat) :
  dict_get k (map (sort_bucket uv) b)
  = sorted_reverse (score uv) <$> dict_get k b.
Proof.
  induction b as [|[k0 ws] b IH]; simpl; [reflexivity|].
  destruct (decide (k = k0)); [reflexivity | exact IH].
Qed.

Lemma elem_of_sort_bucket (uv : dict ascii nat) (b : buckets) k ws :
  (k, ws) ∈ map (sort_bucket uv) b ->
  exists ws0, (k, ws0) ∈ b /\ ws = sorted_reverse (score uv) ws0.
Proof.
  intros Hin. apply list_elem_of_In, in_map_iff in Hin as ([k0 ws0] & Heq & Hin).
  injection Heq as <- <-. exists ws0. split; [by apply list_elem_of_In | done].
Qed.

Lemma elem_of_words_with_overlap cset k (cands : pool) (w : string) :
  w ∈ words_with_overlap cset k cands
  <-> exists S, (w, S) ∈ cands /\ overlap cset (w, S) = k.
Proof.
  unfold words_with_overlap. rewrite list_elem_of_In, in_map_iff. split.
  - intros ([w' S] & Hw & Hin). simpl in Hw. subst w'.
    apply filter_In in Hin as [Hin Hov]. apply Nat.eqb_eq in Hov.
    exists S. split; [by apply list_elem_of_In | done].
  - intros (S & Hin & Hov). exists (w, S). split; [reflexivity|].
    apply filter_In. split; [by apply list_elem_of_In | by apply Nat.eqb_eq].
Qed.

(** With nothing in the buckets before, the first loop of [feature_bucket]
    leaves under [k] the words of overlap [k], and no empty bucket. *)
Lemma fill_buckets_elem_of cset (cands : pool) k ws :
  (k, ws) ∈ fill_buckets cset cands []
  <-> ws = words_with_overlap cset k cands /\ ws <> [].
Proof.
  assert (Hwf : dict_wf (fill_buckets cset cands [])).
  { apply fill_buckets_wf. constructor. }
  pose proof (fill_buckets_get cset cands [] k) as Hget. simpl in Hget.
  split.
  - intros Hin. apply (dict_get_elem_of _ _ _ Hwf) in Hin.
    rewrite Hin in Hget.
    destruct (words_with_overlap cset k cands); [discriminate|].
    injection Hget as ->. split; [reflexivity | discriminate].
  - intros [-> Hne]. apply dict_get_Some_elem_of. rewrite Hget.
    destruct (words_with_overlap cset k cands); [contradiction | reflexivity].
Qed.

(** ** choose_guess *)

Lemma fold_left_max_elem_of (ks : list nat) (k : nat) :
  fold_left Nat.max ks k ∈ k :: ks.
Proof.
  revert k. induction ks as [|a ks IH]; intros k; simpl; [left|].
  specialize (IH (Nat.max k a)).
  apply elem_of_cons in IH as [->|Hin]; [|right; by right].
  destruct (Nat.max_dec k a) as [->| ->]; [left | right; left].
Qed.

Lemma fold_left_max_base (ks : list nat) (k : nat) :
  (k <= fold_left Nat.max ks k)%nat.
Proof.
  revert k. induction ks as [|a ks IH]; intros k; simpl; [lia|].
  specialize (IH (Nat.max k a)). lia.
Qed.

Lemma fold_left_max_ge (ks : list nat) (k x : nat) :
  x ∈ k :: ks -> (x <= fold_left Nat.max ks k)%nat.
Proof.
  revert k. induction ks as [|a ks IH]; intros k; simpl.
  - intros Hin. apply list_elem_of_singleton in Hin. lia.
  - pose proof (fold_left_max_base ks (Nat.max k a)) as Hbase.
    rewrite !elem_of_cons. intros [->|[->|Hin]]; [lia | lia |].
    apply IH. by right.
Qed.

(** On a bucket dict with a key and no empty bucket, [choose_guess] returns
    the first word of the bucket with the largest key. *)
Lemma choose_guess_returns (b : buckets) :
  b <> [] ->
  (forall k ws, (k, ws) ∈ b -> ws <> []) ->
  exists k word ws,
    choose_guess b = Return word
    /\ (k, word :: ws) ∈ b
    /\ forall k', k' ∈ dict_keys b -> (k' <= k)%nat.
Proof.
  intros Hne Hfull. unfold choose_guess.
  destruct (dict_keys b) as [|k ks] eqn:Hkeys.
  { destruct b; [contradiction | discriminate]. }
  pose proof (fold_left_max_elem_of ks k) as Hin. rewrite <- Hkeys in Hin.
  destruct (dict_get (fold_left Nat.max ks k) b) as [ws|] eqn:Hget.
  - apply dict_get_Some_elem_of in Hget.
    destruct ws as [|word ws]; [by apply Hfull in Hget|].
    exists (fold_left Nat.max ks k), word, ws. repeat split; [done|].
    intros k' Hk'. by apply fold_left_max_ge.
  - by apply dict_get_None_keys in Hget.
Qed.

Lemma strongly_sorted_lookup {A} (R : A -> A -> Prop) (l : list A)
    (i j : nat) (x y : A) :
  StronglySorted R l -> l !! i = Some x -> l !! j = Some y -> (i < j)%nat ->
  R x y.
Proof.
  intros Hs. revert i j. induction Hs as [|a l Hs IH Hall]; intros i j Hi Hj Hlt.
  - discriminate.
  - destruct j as [|j]; [lia|]. simpl in Hj. destruct i as [|i]; simpl in Hi.
    + injection Hi as ->. rewrite Forall_forall in Hall.
      apply Hall. by eapply list_elem_of_lookup_2.
    + apply (IH i j Hi Hj). lia.
Qed.

(** ** The claims on break_ties and feature_bucket *)

(** C5 (tie-break): with the vowel table [usage_vowels] sorted by falling
    count, the letter at index [i] of the table weighs
    [len(usage_vowels) - 1 - i], its index in the reversed table: the first,
    most frequent letter weighs most, the last one 0, a letter with a larger
    count more than one with a smaller count, and a letter outside the table
    0.  The score of a word adds the weight of every character, repeated
    ones each time.  [break_ties] keeps the keys of the bucket dict and
    leaves under each key the same words sorted by falling score, words of
    equal score in their former order; in the buckets of [feature_bucket]
    that is the order of the pool. *)
Theorem break_ties_ranks_scores_sorts (usage_vowels : usage_table)
    (cands : buckets) (usage : usage_table) :
  dict_wf usage_vowels ->
  StronglySorted (fun x y => (snd y <= snd x)%nat) usage_vowels ->
  dict_wf cands ->
  let uv := rank_weights usage_vowels in
  (forall i l n, usage_vowels !! i = Some (l, n) ->
                 uv_get uv l = (length usage_vowels - 1 - i)%nat)
  /\ (forall l, l ∉ dict_keys usage_vowels -> uv_get uv l = 0%nat)
  /\ (forall l1 n1 l2 n2,
         (l1, n1) ∈ usage_vowels -> (l2, n2) ∈ usage_vowels ->
         (n2 < n1)%nat -> (uv_get uv l2 < uv_get uv l1)%nat)
  /\ score uv "" = 0%nat
  /\ (forall c w, score uv (String c w) = (uv_get uv c + score uv w)%nat)
  /\ dict_keys (break_ties usage_vowels cands usage) = dict_keys cands
  /\ (forall k words, dict_get k cands = Some words ->
        exists words',
          dict_get k (break_ties usage_vowels cands usage) = Some words'
          /\ Permutation words' words
          /\ StronglySorted (key_ge (score uv)) words'
          /\ forall s,
               List.filter (fun w => score uv w =? s)%nat words'
               = List.filter (fun w => score uv w =? s)%nat words)
  /\ forall (dictionary : pool) (has_vowels : bool) k ws,
       (k, ws) ∈ feature_bucket usage_vowels dictionary usage has_vowels ->
       StronglySorted (key_ge (score uv)) ws
       /\ forall s,
            List.filter (fun w => score uv w =? s)%nat ws
            = List.filter (fun w => score uv w =? s)%nat
                (words_with_overlap (letter_class has_vowels) k dictionary).
Proof.
  intros Hwf Hsorted Hcands uv.
  assert (Hrank : forall i l n, usage_vowels !! i = Some (l, n) ->
                    uv_get uv l = (length usage_vowels - 1 - i)%nat).
  { intros i l n Hi. by eapply rank_weight_lookup. }
  split; [exact Hrank|]. split; [apply rank_weight_absent|]. split.
  { intros l1 n1 l2 n2 H1 H2 Hlt.
    apply list_elem_of_lookup in H1 as [i Hi], H2 as [j Hj].
    rewrite (Hrank _ _ _ Hi), (Hrank _ _ _ Hj).
    pose proof (lookup_lt_Some _ _ _ Hi) as Hilen.
    pose proof (lookup_lt_Some _ _ _ Hj) as Hjlen.
    destruct (decide (i < j)%nat) as [Hij|Hij]; [lia|]. exfalso.
    destruct (decide (i = j)) as [->|Hne].
    - rewrite Hi in Hj. injection Hj as _ <-. lia.
    - assert (Hji : (j < i)%nat) by lia.
      pose proof (strongly_sorted_lookup _ _ _ _ _ _ Hsorted Hj Hi Hji) as Hle.
      simpl in Hle. lia. }
  split; [reflexivity|]. split; [reflexivity|].
  rewrite break_ties_map by exact Hcands. split; [apply sort_bucket_keys|].
  split.
  - intros k words Hget. exists (sorted_reverse (score uv) words).
    rewrite dict_get_sort_bucket, Hget. repeat split.
    + apply sorted_reverse_perm.
    + apply sorted_reverse_sorted.
    + intros s. apply sorted_reverse_stable.
  - intros dictionary has_vowels k ws Hin. rewrite feature_bucket_map in Hin.
    apply elem_of_sort_bucket in Hin as (ws0 & Hin & ->).
    apply fill_buckets_elem_of in Hin as [-> _]. split.
    + apply sorted_reverse_sorted.
    + intros s. apply sorted_reverse_stable.
Qed.

Lemma break_ties_ranks_scores_sorts_witness :
  uv_get (rank_weights notebook_usage_vowels) "e"%char = 5%nat
  /\ uv_get (rank_weights notebook_usage_vowels) "y"%char = 0%nat
  /\ exists words',
       dict_get 2%nat (break_ties notebook_usage_vowels
                         [(2%nat, ["cigar"; "rebut"; "siste"]);
                          (1%nat, ["humph"])] [])
       = Some words'
       /\ Permutation words' ["cigar"; "rebut"; "siste"]
       /\ StronglySorted
            (key_ge (score (rank_weights notebook_usage_vowels))) words'.
Proof.
  assert (Hwf : dict_wf notebook_usage_vowels) by by_evaluation.
  assert (Hsorted : StronglySorted (fun x y => (snd y <= snd x)%nat)
                                   notebook_usage_vowels).
  { repeat constructor; simpl; lia. }
  assert (Hcands : dict_wf [(2%nat, ["cigar"; "rebut"; "siste"]);
                            (1%nat, ["humph"])]) by by_evaluation.
  destruct (break_ties_ranks_scores_sorts notebook_usage_vowels
              [(2%nat, ["cigar"; "rebut"; "siste"]); (1%nat, ["humph"])] []
              Hwf Hsorted Hcands)
    as (Hrank & _ & _ & _ & _ & _ & Hsort & _).
  split; [exact (Hrank 0%nat "e"%char 1056%nat eq_refl)|].
  split; [exact (Hrank 5%nat "y"%char 417%nat eq_refl)|].
  destruct (Hsort 2%nat ["cigar"; "rebut"; "siste"] eq_refl)
    as (words' & Hget & Hperm & Hs & _).
  exists words'. repeat split; assumption.
Defined.

(** C6: the [usage] argument of [break_ties] and [feature_bucket] is never
    read: two calls that differ only in it give the same buckets, for either
    value of [has_vowels]; the order inside each bucket comes from the
    global vowel table alone, and so a run of [compute_wordle] does not
    depend on the two tables passed to it. *)
Theorem usage_parameter_ignored (usage_vowels : usage_table) (cands : pool)
    (usage1 usage2 : usage_table) (has_vowels : bool) :
  feature_bucket usage_vowels cands usage1 has_vowels
  = feature_bucket usage_vowels cands usage2 has_vowels
  /\ feature_bucket usage_vowels cands usage1 has_vowels
     = map (sort_bucket (rank_weights usage_vowels))
           (fill_buckets (letter_class has_vowels) cands [])
  /\ (forall b : buckets,
         break_ties usage_vowels b usage1 = break_ties usage_vowels b usage2)
  /\ forall word usage_cons1 usage_cons2 max_tries,
       compute_wordle usage_vowels cands word usage1 usage_cons1 max_tries
       = compute_wordle usage_vowels cands word usage2 usage_cons2 max_tries.
Proof.
  split; [reflexivity|]. split; [apply feature_bucket_map|].
  split; [reflexivity|].
  intros word uc1 uc2 max_tries. unfold compute_wordle.
  generalize (Z.to_nat max_tries) 1%Z (@None (list string))
             {| w_cands := cands; w_evaluated := [] |}.
  induction n as [|fuel IH]; intros attempt board w; simpl.
  - reflexivity.
  - destruct (attempt <=? max_tries)%Z; [|reflexivity].
    change (loop_body usage_vowels word usage2 uc2 attempt w)
      with (loop_body usage_vowels word usage1 uc1 attempt w).
    destruct (loop_body usage_vowels word usage1 uc1 attempt w)
      as [[[h|[attempt' board']]|e] w']; try reflexivity.
    apply IH.
Qed.

(** C10: the buckets of [feature_bucket] split the pool.  Each key is there
    once, no bucket is empty, the bucket of key [k] holds the words whose
    letter set shares [k] letters with the class, every word of the pool is
    in the bucket of its overlap and in no other, all buckets together hold
    each word of the pool once, and on a pool that is not empty
    [choose_guess] returns one of its words. *)
Theorem feature_bucket_partition (usage_vowels : usage_table) (cands : pool)
    (usage : usage_table) (has_vowels : bool) :
  dict_wf cands ->
  let cset := letter_class has_vowels in
  let b := feature_bucket usage_vowels cands usage has_vowels in
  dict_wf b
  /\ (forall k ws, (k, ws) ∈ b ->
        ws <> [] /\ Permutation ws (words_with_overlap cset k cands))
  /\ (forall w S, (w, S) ∈ cands ->
        exists ws, (overlap cset (w, S), ws) ∈ b /\ w ∈ ws)
  /\ (forall w S k ws, (w, S) ∈ cands -> (k, ws) ∈ b -> w ∈ ws ->
        k = overlap cset (w, S))
  /\ Permutation (bucket_words b) (dict_keys cands)
  /\ NoDup (bucket_words b)
  /\ (cands <> [] ->
      exists word, choose_guess b = Return word /\ word ∈ dict_keys cands).
Proof.
  intros Hwf cset b. subst b. rewrite feature_bucket_map. fold cset.
  set (uv := rank_weights usage_vowels).
  set (filled := fill_buckets cset cands []).
  assert (Hbwf : dict_wf (map (sort_bucket uv) filled)).
  { unfold dict_wf. rewrite sort_bucket_keys.
    apply fill_buckets_wf. constructor. }
  assert (Hbucket : forall k ws, (k, ws) ∈ map (sort_bucket uv) filled ->
            ws <> [] /\ Permutation ws (words_with_overlap cset k cands)).
  { intros k ws Hin. apply elem_of_sort_bucket in Hin as (ws0 & Hin & ->).
    apply fill_buckets_elem_of in Hin as [-> Hne]. split.
    - intros Hnil. by apply sorted_reverse_nil_inv in Hnil.
    - apply sorted_reverse_perm. }
  assert (Hperm : Permutation (bucket_words (map (sort_bucket uv) filled))
                              (dict_keys cands)).
  { rewrite sort_bucket_words. apply fill_buckets_words. }
  split; [exact Hbwf|]. split; [exact Hbucket|]. split; [|split].
  - intros w S Hin.
    assert (Hw : w ∈ words_with_overlap cset (overlap cset (w, S)) cands).
    { apply elem_of_words_with_overlap. eauto. }
    exists (sorted_reverse (score uv)
              (words_with_overlap cset (overlap cset (w, S)) cands)).
    split.
    + apply list_elem_of_In, in_map_iff.
      exists (overlap cset (w, S),
              words_with_overlap cset (overlap cset (w, S)) cands).
      split; [reflexivity|]. apply list_elem_of_In, fill_buckets_elem_of.
      split; [reflexivity|]. intros Hnil. rewrite Hnil in Hw.
      by apply elem_of_nil in Hw.
    + by rewrite sorted_reverse_perm.
  - intros w S k ws Hin Hk Hw. apply Hbucket in Hk as [_ Hk].
    rewrite Hk in Hw. apply elem_of_words_with_overlap in Hw as (S' & Hin' & <-).
    apply (dict_get_elem_of _ _ _ Hwf) in Hin, Hin'. congruence.
  - split; [exact Hperm|]. split; [by rewrite Hperm|].
    intros Hne.
    destruct (choose_guess_returns (map (sort_bucket uv) filled))
      as (k & word & ws & Hret & Hin & _).
    + intros Hnil. destruct cands as [|e cands]; [contradiction|].
      rewrite Hnil in Hperm. by apply Permutation_nil_cons in Hperm.
    + intros k ws Hin. exact (proj1 (Hbucket k ws Hin)).
    + exists word. split; [exact Hret|]. rewrite <- Hperm.
      unfold bucket_words. apply list_elem_of_In, in_concat.
      exists (word :: ws). split; [|by left].
      apply in_map_iff. exists (k, word :: ws).
      split; [reflexivity | by apply list_elem_of_In].
Qed.

Lemma feature_bucket_partition_witness :
  test_cands <> [] /\
  exists word,
    choose_guess (feature_bucket notebook_usage_vowels test_cands [] true)
    = Return word
    /\ word ∈ dict_keys test_cands.
Proof.
  split; [discriminate|].
  assert (Hwf : dict_wf test_cands) by by_evaluation.
  apply (feature_bucket_partition notebook_usage_vowels test_cands [] true Hwf).
  discriminate.
Defined.

(** ** compute_wordle *)

Lemma shared_position_exn (w : string) (game : list string) (i : nat) e :
  shared_position w game i = Raise e -> e = IndexError.
Proof.
  revert i. induction game as [|slot game IH]; intros i; cbn [shared_position].
  - discriminate.
  - destruct (0 <? String.length slot)%nat; [|apply IH].
    destruct (String.get i w); [|congruence].
    destruct (negb _); [discriminate | apply IH].
Qed.

Lemma eliminate_loop_exn candidate_words (cands : pool) game found contra e :
  fst (eliminate_loop candidate_words cands game found contra) = Raise e ->
  e = KeyError \/ e = IndexError.
Proof.
  revert cands. induction candidate_words as [|w ws IH]; intros cands; simpl.
  - discriminate.
  - destruct (dict_get w cands) as [S|]; [|simpl; intros [= <-]; by left].
    destruct (negb _); [apply IH|].
    destruct (0 <? _)%nat; [apply IH|].
    destruct (shared_position w game 0) as [[|]|e'] eqn:Hpos;
      [apply IH | apply IH |].
    simpl. intros [= <-]. right. by eapply shared_position_exn.
Qed.

Lemma choose_guess_exn (b : buckets) e :
  choose_guess b = Raise e -> e = ValueError \/ e = IndexError.
Proof.
  unfold choose_guess. destruct (dict_keys b); [intros [= <-]; by left|].
  destruct (dict_get _ b) as [[|word ws]|]; try discriminate;
    intros [= <-]; by right.
Qed.

Ltac split_outcome :=
  let Heq := fresh "Heq" in
  cbv beta iota; intros Heq; apply pair_equal_spec in Heq as [<- <-].

(** What one pass through the loop body can do: it only removes entries
    from the pool; it evaluates no guess, one guess under the counter
    [attempt], or that one and a second under [attempt + 1]; it returns a
    solved result carrying one of these two counter values, or ends with the
    counter at [attempt + 2], or raises, never [UnboundLocalError]. *)
Lemma loop_body_cases (usage_vowels : usage_table) (word : string)
    (uv uc : usage_table) (attempt : Z) (w : world) r w' :
  loop_body usage_vowels word uv uc attempt w = (r, w') ->
  sublist (w_cands w') (w_cands w)
  /\ (exists L,
         w_evaluated w' = w_evaluated w ++ L
         /\ (L = [] \/ (exists g, L = [(attempt, g)])
             \/ exists g1 g2, L = [(attempt, g1); ((attempt + 1)%Z, g2)]))
  /\ match r with
     | Return (inl h) =>
         h_solved h = true
         /\ (h_attempts h = attempt \/ h_attempts h = (attempt + 1)%Z)
         /\ exists g, last (w_evaluated w') = Some (h_attempts h, g)
     | Return (inr (attempt', _)) => attempt' = (attempt + 2)%Z
     | Raise e => e <> UnboundLocalError
     end.
Proof.
  unfold loop_body, mbind, M_bind, mret, M_ret, lift, read_cands,
    call_play_wordle, call_eliminate, eliminate.
  cbn [w_cands w_evaluated].
  destruct (choose_guess _) as [g1|e1] eqn:Hg1.
  2:{ split_outcome. split; [reflexivity|]. split.
    - exists []. split; [by rewrite app_nil_r | by left].
    - apply choose_guess_exn in Hg1 as [->| ->]; discriminate. }
  destruct (play_wordle g1 word) as [board1 found1]. cbv beta iota.
  assert (Hlog1 : exists L,
             w_evaluated w ++ [(attempt, g1)] = w_evaluated w ++ L
             /\ (L = [] \/ (exists g, L = [(attempt, g)])
                 \/ exists g1 g2, L = [(attempt, g1); ((attempt + 1)%Z, g2)])).
  { exists [(attempt, g1)]. split; [reflexivity | right; left; eauto]. }
  destruct (solved_game board1); cbv beta iota; cbn [w_cands w_evaluated].
  { split_outcome. cbn. split; [reflexivity|]. split; [exact Hlog1|].
    split; [reflexivity|]. split; [by left|].
    exists g1. by rewrite last_snoc. }
  pose proof (eliminate_loop_sublist (dict_keys (w_cands w)) (w_cands w)
                board1 found1 (set_of g1 ∖ found1)) as Hsub1.
  pose proof (eliminate_loop_exn (dict_keys (w_cands w)) (w_cands w)
                board1 found1 (set_of g1 ∖ found1)) as Hexn1.
  destruct (eliminate_loop (dict_keys (w_cands w)) (w_cands w) board1 found1
              (set_of g1 ∖ found1)) as [r1 cands1].
  cbn [fst snd] in Hsub1, Hexn1. cbv beta iota. cbn [w_cands w_evaluated].
  destruct r1 as [[]|e1]; cbv beta iota; cbn [w_cands w_evaluated].
  2:{ split_outcome. cbn. split; [exact Hsub1|]. split; [exact Hlog1|].
    destruct (Hexn1 e1 eq_refl) as [->| ->]; discriminate. }
  destruct (choose_guess (feature_bucket usage_vowels cands1 uv false))
    as [g2|e2] eqn:Hg2.
  2:{ split_outcome. cbn. split; [exact Hsub1|]. split; [exact Hlog1|].
    apply choose_guess_exn in Hg2 as [->| ->]; discriminate. }
  destruct (play_wordle g2 word) as [board2 found2]. cbv beta iota.
  assert (Hlog2 : exists L,
             (w_evaluated w ++ [(attempt, g1)]) ++ [((attempt + 1)%Z, g2)]
             = w_evaluated w ++ L
             /\ (L = [] \/ (exists g, L = [(attempt, g)])
                 \/ exists g1 g2, L = [(attempt, g1); ((attempt + 1)%Z, g2)])).
  { exists [(attempt, g1); ((attempt + 1)%Z, g2)].
    split; [by rewrite <- app_assoc | right; right; eauto]. }
  destruct (solved_game board2); cbv beta iota; cbn [w_cands w_evaluated].
  { split_outcome. cbn. split; [exact Hsub1|]. split; [exact Hlog2|].
    split; [reflexivity|]. split; [by right|].
    exists g2. by rewrite last_snoc. }
  pose proof (eliminate_loop_sublist (dict_keys cands1) cands1
                board2 found2 (set_of g2 ∖ found2)) as Hsub2.
  pose proof (eliminate_loop_exn (dict_keys cands1) cands1
                board2 found2 (set_of g2 ∖ found2)) as Hexn2.
  destruct (eliminate_loop (dict_keys cands1) cands1 board2 found2
              (set_of g2 ∖ found2)) as [r2 cands2].
  cbn [fst snd] in Hsub2, Hexn2. cbv beta iota. cbn [w_cands w_evaluated].
  destruct r2 as [[]|e2]; split_outcome; cbn;
    (split; [by etransitivity | split; [exact Hlog2|]]).
  - lia.
  - destruct (Hexn2 e2 eq_refl) as [->| ->]; discriminate.
Qed.

(** The fuel given by [compute_wordle] is never used up. *)
Lemma compute_wordle_loop_total (usage_vowels : usage_table) (fuel : nat)
    (word : string) (uv uc : usage_table) (max_tries attempt : Z)
    (board : option (list string)) (w : world) :
  (max_tries - attempt + 1 <= 2 * Z.of_nat fuel)%Z ->
  exists r w',
    compute_wordle_loop usage_vowels fuel word uv uc max_tries attempt board w
    = Some (r, w').
Proof.
  revert attempt board w.
  induction fuel as [|fuel IH]; intros attempt board w Hfuel;
    cbn [compute_wordle_loop];
    destruct (Z.leb_spec attempt max_tries) as [Hle|Hgt];
    try (destruct board; eauto); try lia.
  all: destruct (loop_body usage_vowels word uv uc attempt w)
         as [[[h|[attempt' board']]|e] w'] eqn:Hbody; eauto.
  all: apply loop_body_cases in Hbody as (_ & _ & ->); apply IH; lia.
Qed.

(** A run of the loop from the counter value [attempt] on: the pool only
    loses entries, the guesses evaluated carry counter values from
    [attempt] to [max_tries + 1], and stay within [max_tries] when
    [max_tries - attempt] is odd; [UnboundLocalError] needs a loop that never
    ran its body. *)
Lemma compute_wordle_loop_facts (usage_vowels : usage_table) (fuel : nat)
    (word : string) (uv uc : usage_table) (max_tries attempt : Z)
    (board : option (list string)) (w : world) r w' :
  compute_wordle_loop usage_vowels fuel word uv uc max_tries attempt board w
  = Some (r, w') ->
  sublist (w_cands w') (w_cands w)
  /\ (exists L,
         w_evaluated w' = w_evaluated w ++ L
         /\ Forall (fun e => (attempt <= fst e <= max_tries + 1)%Z) L
         /\ (Z.odd (max_tries - attempt) = true ->
             Forall (fun e => (fst e <= max_tries)%Z) L))
  /\ (r = Raise UnboundLocalError ->
      board = None /\ (max_tries < attempt)%Z /\ w' = w).
Proof.
  revert attempt board w.
  induction fuel as [|fuel IH]; intros attempt board w;
    cbn [compute_wordle_loop];
    destruct (Z.leb_spec attempt max_tries) as [Hle|Hgt]; try discriminate.
  1,3: destruct board as [b|]; intros [= <- <-];
       (split; [reflexivity|]);
       (split; [exists []; rewrite app_nil_r; repeat split; constructor|]);
       [discriminate | done].
  destruct (loop_body usage_vowels word uv uc attempt w)
    as [r0 w0] eqn:Hbody.
  apply loop_body_cases in Hbody as (Hsub0 & (L0 & Hlog0 & HL0) & Hr0).
  assert (Hbound0 :
            Forall (fun e => (attempt <= fst e <= max_tries + 1)%Z) L0
            /\ (Z.odd (max_tries - attempt) = true ->
                Forall (fun e => (fst e <= max_tries)%Z) L0)).
  { destruct HL0 as [->|[[g ->]|(g1 & g2 & ->)]].
    - split; [constructor | intros _; constructor].
    - split; [|intros _]; repeat constructor; simpl; lia.
    - split; [repeat constructor; simpl; lia|]. intros Hodd.
      assert (attempt <> max_tries).
      { intros ->. by rewrite Z.sub_diag in Hodd. }
      repeat constructor; simpl; lia. }
  destruct Hbound0 as [Hb0 Hb0'].
  destruct r0 as [[h|[attempt' board']]|e].
  - intros [= <- <-]. split; [exact Hsub0|]. split; [eauto|]. discriminate.
  - subst attempt'. intros Hrun.
    apply IH in Hrun as (Hsub & (L & Hlog & HL & HL') & Hr).
    split; [by etransitivity|]. split.
    + exists (L0 ++ L). rewrite Hlog, Hlog0, <- app_assoc.
      split; [reflexivity|]. split.
      * apply Forall_app. split; [exact Hb0|].
        eapply Forall_impl; [exact HL|]. intros e He. simpl in He. lia.
      * intros Hodd. apply Forall_app. split; [auto|]. apply HL'.
        replace (max_tries - (attempt + 2))%Z
          with (max_tries - attempt + 2 * (-1))%Z by lia.
        rewrite Z.odd_add_mul_2. exact Hodd.
    + intros ->. destruct (Hr eq_refl) as [Habs _]. discriminate.
  - intros [= <- <-]. split; [exact Hsub0|]. split; [eauto|].
    intros [= ->]. contradiction.
Qed.

(** Every run of [compute_wordle] ends, with a result or an exception. *)
Lemma compute_wordle_total (usage_vowels : usage_table) (cands : pool)
    (word : string) (uv uc : usage_table) (max_tries : Z) :
  exists r w,
    compute_wordle usage_vowels cands word uv uc max_tries = Some (r, w).
Proof.
  unfold compute_wordle. apply compute_wordle_loop_total. lia.
Qed.

(** The counter values under which a run evaluates guesses: never more than
    [max_tries + 1], and never more than [max_tries] when [max_tries] is
    even; the pool at the end is the given one with entries removed. *)
Lemma compute_wordle_attempts_bound (usage_vowels : usage_table)
    (cands : pool) (word : string) (uv uc : usage_table) (max_tries : Z) r w :
  compute_wordle usage_vowels cands word uv uc max_tries = Some (r, w) ->
  Forall (fun e => (1 <= fst e <= max_tries + 1)%Z) (w_evaluated w)
  /\ (Z.even max_tries = true ->
      Forall (fun e => (fst e <= max_tries)%Z) (w_evaluated w))
  /\ sublist (w_cands w) cands.
Proof.
  unfold compute_wordle. intros Hrun.
  apply compute_wordle_loop_facts in Hrun
    as (Hsub & (L & Hlog & HL & HL') & _).
  cbn [w_cands w_evaluated] in *. rewrite Hlog, app_nil_l.
  split; [exact HL|]. split; [|exact Hsub].
  intros Heven. apply HL'.
  replace (max_tries - 1)%Z with (max_tries + 2 * (-1) + 1)%Z by lia.
  rewrite Z.odd_add, Z.odd_add_mul_2, <- Z.negb_even, Heven. reflexivity.
Qed.

(** ** The claims on compute_wordle *)

(** C4 fails on the code when [max_tries] is odd: the [while] test guards
    the vowel guess only, and the consonant guess of the same pass runs under
    the counter value [max_tries + 1].  With [max_tries = 1], the words
    cigar, rebut, siste, humph and the secret ["humph"], the run evaluates
    ["siste"] under 1, then ["humph"] under 2, and returns it as solved in 2
    attempts. *)
Theorem compute_wordle_guess_past_max_tries :
  exists w,
    compute_wordle notebook_usage_vowels (make_cands small_data) "humph"
                   notebook_usage_vowels [] 1
    = Some (Return {| h_board := "humph"; h_attempts := 2; h_solved := true |},
            w)
    /\ w_evaluated w = [(1%Z, "siste"); (2%Z, "humph")]
    /\ Exists (fun e => (1 < fst e)%Z) (w_evaluated w).
Proof.
  eexists. split; [vm_compute; reflexivity|].
  split; [reflexivity|]. right. left. simpl. lia.
Qed.

(** C8 as stated fails: with [max_tries = 0] the exception is the built-in
    [UnboundLocalError]. *)
Lemma compute_wordle_zero_tries_unbound :
  (0 <= 0)%Z
  /\ exists r w,
       compute_wordle notebook_usage_vowels test_cands "siste"
                      notebook_usage_vowels [] 0 = Some (r, w)
       /\ r = Raise UnboundLocalError
       /\ ~ raises r "InvalidConfigurationError".
Proof.
  split; [lia|]. eexists _, _. split; [reflexivity|].
  split; [reflexivity|]. intros (e & He & Hname).
  injection He as <-. discriminate Hname.
Qed.

(** * Further properties of the notebook's functions *)

(** ** choose_guess *)

(** X1: what [choose_guess] does on any bucket dict.  It returns the first
    word of the bucket under the largest key; it raises [ValueError] exactly
    on a dict without keys ([max] of an empty list), and [IndexError] exactly
    when the bucket under the largest key is empty. *)
Theorem choose_guess_outcomes (b : buckets) :
  match choose_guess b with
  | Return word =>
      exists k ws,
        dict_get k b = Some (word :: ws)
        /\ k ∈ dict_keys b
        /\ forall k', k' ∈ dict_keys b -> (k' <= k)%nat
  | Raise e =>
      (e = ValueError /\ b = [])
      \/ (e = IndexError /\ b <> []
          /\ exists k, dict_get k b = Some []
                       /\ forall k', k' ∈ dict_keys b -> (k' <= k)%nat)
  end.
Proof.
  unfold choose_guess. destruct (dict_keys b) as [|k ks] eqn:Hkeys.
  { left. split; [reflexivity|]. by destruct b. }
  assert (Hne : b <> []) by (intros ->; discriminate).
  pose proof (fold_left_max_elem_of ks k) as Hin.
  pose proof (fold_left_max_ge ks k) as Hmax.
  set (choose := fold_left Nat.max ks k) in *.
  destruct (dict_get choose b) as [[|word ws]|] eqn:Hget.
  - right. split; [reflexivity|]. split; [exact Hne|]. eauto.
  - exists choose, ws. split; [exact Hget|]. split; [exact Hin | exact Hmax].
  - apply dict_get_None_keys in Hget. rewrite Hkeys in Hget. contradiction.
Qed.

(** ** solved_game on the board of play_wordle *)

Lemma zip_board_solved (word guess : string) :
  solved_game (zip_board word guess) = true <-> agree_on_common guess word.
Proof.
  unfold agree_on_common. revert guess.
  induction word as [|a word IH]; intros [|b guess]; cbn [zip_board].
  - split; [intros _ i g s Hg; discriminate | reflexivity].
  - split; [intros _ i g s _ Hs; discriminate | reflexivity].
  - split; [intros _ i g s Hg; discriminate | reflexivity].
  - cbn [solved_game forallb]. rewrite andb_true_iff.
    change (forallb _ (zip_board word guess))
      with (solved_game (zip_board word guess)).
    rewrite IH. destruct (Ascii.eqb_spec a b) as [->|Hab]; cbn.
    + split.
      * intros [_ Hall] [|i] g s Hg Hs; simpl in Hg, Hs; [congruence|eauto].
      * intros Hall. split; [reflexivity|].
        intros i g s Hg Hs. apply (Hall (S i) g s Hg Hs).
    + split; [intros [Hf _]; discriminate|].
      intros Hall. exfalso. apply Hab. symmetry.
      apply (Hall 0%nat b a eq_refl eq_refl).
Qed.

Lemma agree_same_length (guess secret : string) :
  String.length guess = String.length secret ->
  agree_on_common guess secret -> guess = secret.
Proof.
  unfold agree_on_common. revert secret.
  induction guess as [|b guess IH]; intros [|a secret]; simpl;
    try discriminate; [reflexivity|].
  intros [= Hlen] Hall. f_equal.
  - apply (Hall 0%nat b a eq_refl eq_refl).
  - apply IH; [exact Hlen|]. intros i g s Hg Hs. apply (Hall (S i) g s Hg Hs).
Qed.

Lemma agree_prefix (guess rest : string) :
  agree_on_common guess (String.append guess rest).
Proof.
  unfold agree_on_common. induction guess as [|b guess IH]; simpl.
  - intros i g s Hg. discriminate.
  - intros [|i] g s Hg Hs; simpl in Hg, Hs; [congruence | eauto].
Qed.

Lemma join_zip_board_same (w : string) : String.concat "" (zip_board w w) = w.
Proof.
  induction w as [|a w IH]; [reflexivity|].
  cbn [zip_board]. rewrite Ascii.eqb_refl.
  destruct w as [|a' w']; [reflexivity|].
  cbn [zip_board] in *. cbn [String.concat] in *.
  rewrite IH. reflexivity.
Qed.

(** X2: [solved_game] accepts the board of [play_wordle] exactly when guess
    and secret agree at every position both of them have.  So a guess that
    is a proper prefix of the secret counts as solved, and so does the empty
    guess (its board is empty, and [all([])] is true). *)
Theorem solved_game_common_positions (guess secret : string) :
  (solved_game (fst (play_wordle guess secret)) = true
   <-> agree_on_common guess secret)
  /\ (forall rest,
         solved_game (fst (play_wordle guess (String.append guess rest))) = true)
  /\ solved_game (fst (play_wordle "" secret)) = true.
Proof.
  unfold play_wordle. cbn [fst]. split; [apply zip_board_solved|]. split.
  - intros rest. apply zip_board_solved, agree_prefix.
  - by destruct secret.
Qed.

(** X3: for a guess as long as the secret, the board is solved exactly when
    the guess is the secret, and the dict that [report_solution] then builds
    has the secret as its board. *)
Theorem solved_game_names_secret (guess secret : string) (attempt : Z) :
  String.length guess = String.length secret ->
  (solved_game (fst (play_wordle guess secret)) = true <-> guess = secret)
  /\ (solved_game (fst (play_wordle guess secret)) = true ->
      report_solution (fst (play_wordle guess secret)) attempt
      = {| h_board := secret; h_attempts := attempt; h_solved := true |}).
Proof.
  intros Hlen. unfold play_wordle. cbn [fst].
  assert (Hiff : solved_game (zip_board secret guess) = true <-> guess = secret).
  { rewrite zip_board_solved. split; [by apply agree_same_length|].
    intros ->. intros i g s Hg Hs. congruence. }
  split; [exact Hiff|]. intros Hsolved. apply Hiff in Hsolved as ->.
  unfold report_solution. by rewrite join_zip_board_same.
Qed.

Lemma solved_game_names_secret_witness :
  (solved_game (fst (play_wordle "onset" "onset")) = true <-> "onset" = "onset")
  /\ (solved_game (fst (play_wordle "onset" "onset")) = true ->
      report_solution (fst (play_wordle "onset" "onset")) 4
      = {| h_board := "onset"; h_attempts := 4; h_solved := true |}).
Proof.
  apply (solved_game_names_secret "onset" "onset" 4). reflexivity.
Defined.

(** ** eliminate: what happens to the guess, repetition, order, errors *)

Lemma filter_pool_wf (f : string * gset ascii -> bool) (cands : pool) :
  dict_wf cands -> dict_wf (List.filter f cands).
Proof.
  unfold dict_wf. intros Hwf. eapply sublist_NoDup; [exact Hwf|].
  apply dict_keys_sublist, list_filter_sublist.
Qed.

Lemma filter_board_fits (f : string * gset ascii -> bool) game (cands : pool) :
  board_fits game cands -> board_fits game (List.filter f cands).
Proof.
  unfold board_fits. rewrite !Forall_forall. intros Hfit w Hw. apply Hfit.
  eapply sublist_subseteq; [|exact Hw].
  apply dict_keys_sublist, list_filter_sublist.
Qed.

Lemma elem_of_filter_keys (f : string * gset ascii -> bool) (cands : pool)
    (w : string) (S : gset ascii) :
  dict_wf cands -> (w, S) ∈ cands ->
  w ∈ dict_keys (List.filter f cands) <-> f (w, S) = true.
Proof.
  intros Hwf Hin. unfold dict_keys. rewrite list_elem_of_In, in_map_iff. split.
  - intros ([w' S'] & Hw & Hin'). simpl in Hw. subst w'.
    apply filter_In in Hin' as [Hin' Hf]. apply list_elem_of_In in Hin'.
    apply (dict_get_elem_of _ _ _ Hwf) in Hin, Hin'.
    assert (S' = S) as -> by congruence. exact Hf.
  - intros Hf. exists (w, S). split; [reflexivity|].
    apply filter_In. split; [by apply list_elem_of_In | exact Hf].
Qed.

(** The guess against its own feedback: it passes the test on found letters
    and the test on positions, so its fate rests on the contra letters. *)
Lemma guess_spec_keeps (guess secret : string) :
  let found := snd (play_wordle guess secret) in
  spec_keeps (fst (play_wordle guess secret)) found (set_of guess ∖ found)
             guess (set_of guess)
  <-> set_of guess ⊆ set_of secret.
Proof.
  unfold play_wordle, spec_keeps. cbn [fst snd].
  set (G := set_of guess). set (S := set_of secret). split.
  - intros (_ & Hcontra & _). apply elem_of_subseteq. intros x Hx.
    destruct (decide (x ∈ S)) as [HS|HS]; [exact HS|]. exfalso.
    apply size_empty_inv in Hcontra. apply (not_elem_of_empty (C:=gset ascii) x).
    rewrite <- Hcontra.
    rewrite elem_of_intersection, elem_of_difference, elem_of_intersection.
    tauto.
  - intros Hsub. rewrite elem_of_subseteq in Hsub. repeat split.
    + f_equal. apply set_eq. intros x. rewrite !elem_of_intersection. tauto.
    + replace (G ∩ (G ∖ (G ∩ S))) with (∅ : gset ascii); [apply size_empty|].
      symmetry. apply set_eq. intros x.
      rewrite elem_of_intersection, elem_of_difference, elem_of_intersection.
      split; [|intros Hx; by apply not_elem_of_empty in Hx].
      intros (Hx & _ & Hn). exfalso. apply Hn. split; [exact Hx | auto].
    + intros i slot Hi Hne.
      destruct (zip_board_slot _ _ _ _ Hi Hne) as (c & _ & Hg & ->). eauto.
Qed.

(** X4: after a guess taken from the pool, [eliminate] with the feedback of
    that guess drops the guessed word exactly when it holds a letter the
    secret lacks.  A wrong guess made of letters of the secret only (an
    anagram, say) stays in the pool. *)
Theorem eliminate_drops_guess_iff (cands : pool) (guess secret : string) :
  dict_wf cands ->
  (guess, set_of guess) ∈ cands ->
  board_fits (fst (play_wordle guess secret)) cands ->
  let found := snd (play_wordle guess secret) in
  let cands' := snd (eliminate cands (fst (play_wordle guess secret)) found
                               (set_of guess ∖ found)) in
  guess ∈ dict_keys cands' <-> set_of guess ⊆ set_of secret.
Proof.
  intros Hwf Hin Hfit found cands'. subst cands'.
  rewrite eliminate_filter by assumption. cbn [snd].
  rewrite (elem_of_filter_keys _ _ _ _ Hwf Hin), survives_spec_keeps.
  apply guess_spec_keeps.
Qed.

Lemma eliminate_drops_guess_iff_witness :
  "cigar" ∈ dict_keys
    (snd (eliminate test_cands (fst (play_wordle "cigar" "siste"))
                    (snd (play_wordle "cigar" "siste"))
                    (set_of "cigar" ∖ snd (play_wordle "cigar" "siste"))))
  <-> set_of "cigar" ⊆ set_of "siste".
Proof.
  apply (eliminate_drops_guess_iff test_cands "cigar" "siste").
  - by_evaluation.
  - by_evaluation.
  - by_evaluation.
Defined.

Lemma list_filter_idem {A} (f : A -> bool) (l : list A) :
  List.filter f (List.filter f l) = List.filter f l.
Proof.
  induction l as [|x l IH]; simpl; [reflexivity|].
  destruct (f x) eqn:Hf; simpl; [rewrite Hf; by f_equal | exact IH].
Qed.

Lemma list_filter_comm {A} (f g : A -> bool) (l : list A) :
  List.filter f (List.filter g l) = List.filter g (List.filter f l).
Proof.
  induction l as [|x l IH]; simpl; [reflexivity|].
  destruct (f x) eqn:Hf, (g x) eqn:Hg; simpl; rewrite ?Hf, ?Hg;
    [by f_equal | exact IH..].
Qed.

(** X5: running [eliminate] a second time with the same board and letter
    sets returns and removes nothing more. *)
Theorem eliminate_idempotent (cands : pool) (game : list string)
    (found contra : gset ascii) :
  dict_wf cands ->
  board_fits game cands ->
  let cands' := snd (eliminate cands game found contra) in
  eliminate cands' game found contra = (Return tt, cands').
Proof.
  intros Hwf Hfit cands'. subst cands'.
  rewrite (eliminate_filter cands) by assumption. cbn [snd].
  rewrite eliminate_filter;
    [|by apply filter_pool_wf | by apply filter_board_fits].
  by rewrite list_filter_idem.
Qed.

Lemma eliminate_idempotent_witness :
  eliminate (snd (eliminate test_cands test_game test_found test_contra))
            test_game test_found test_contra
  = (Return tt, snd (eliminate test_cands test_game test_found test_contra)).
Proof.
  apply (eliminate_idempotent test_cands test_game test_found test_contra).
  - by_evaluation.
  - by_evaluation.
Defined.

(** X6: two eliminations give the same pool in either order: what is left
    is the set of entries that pass both feedbacks, in pool order. *)
Theorem eliminate_commutes (cands : pool)
    (game1 : list string) (found1 contra1 : gset ascii)
    (game2 : list string) (found2 contra2 : gset ascii) :
  dict_wf cands ->
  board_fits game1 cands ->
  board_fits game2 cands ->
  eliminate (snd (eliminate cands game1 found1 contra1)) game2 found2 contra2
  = eliminate (snd (eliminate cands game2 found2 contra2)) game1 found1 contra1.
Proof.
  intros Hwf Hfit1 Hfit2.
  rewrite (eliminate_filter cands game1), (eliminate_filter cands game2)
    by assumption.
  cbn [snd].
  rewrite !eliminate_filter;
    try (by apply filter_pool_wf); try (by apply filter_board_fits).
  by rewrite list_filter_comm.
Qed.

Lemma eliminate_commutes_witness :
  eliminate (snd (eliminate test_cands test_game test_found test_contra))
            [""; ""; ""; ""; "e"] (set_of "e") ∅
  = eliminate (snd (eliminate test_cands [""; ""; ""; ""; "e"] (set_of "e") ∅))
              test_game test_found test_contra.
Proof.
  apply (eliminate_commutes test_cands test_game test_found test_contra
                            [""; ""; ""; ""; "e"] (set_of "e") ∅).
  - by_evaluation.
  - by_evaluation.
  - by_evaluation.
Defined.

Lemma string_get_None (w : string) (i : nat) :
  String.get i w = None <-> (String.length w <= i)%nat.
Proof.
  split.
  - intros Hget. destruct (le_lt_dec (String.length w) i) as [Hle|Hlt];
      [exact Hle|].
    destruct (string_get_lt w i Hlt) as [c Hc]. congruence.
  - intros Hle. destruct (String.get i w) as [c|] eqn:Hget; [|reflexivity].
    apply string_get_Some_lt in Hget. lia.
Qed.

Lemma shared_position_raise (w : string) (game : list string) (i0 : nat) :
  shared_position w game i0 = Raise IndexError <->
  exists j slot,
    game !! j = Some slot /\ slot <> "" /\ (String.length w <= i0 + j)%nat
    /\ forall j' slot', (j' < j)%nat -> game !! j' = Some slot' ->
         slot' <> "" ->
         exists c, String.get (i0 + j') w = Some c /\ slot' = letter c.
Proof.
  revert i0. induction game as [|slot0 game IH]; intros i0;
    cbn [shared_position].
  - split; [discriminate | intros (j & slot & Hj & _); discriminate].
  - assert (Hshift :
      shared_position w game (S i0) = Raise IndexError <->
      exists j slot,
        game !! j = Some slot /\ slot <> ""
        /\ (String.length w <= i0 + S j)%nat
        /\ forall j' slot', (j' < j)%nat -> game !! j' = Some slot' ->
             slot' <> "" ->
             exists c, String.get (i0 + S j') w = Some c /\ slot' = letter c).
    { rewrite IH. split; intros (j & slot & Hj & Hne & Hlen & Hall);
        exists j, slot; (split; [exact Hj|]); (split; [exact Hne|]);
        (split; [lia|]); intros j' slot' Hlt Hj' Hne';
        destruct (Hall j' slot' Hlt Hj' Hne') as (c & Hc & ->); exists c;
        (split; [|reflexivity]);
        [replace (i0 + S j')%nat with (S i0 + j')%nat by lia
        |replace (S i0 + j')%nat with (i0 + S j')%nat by lia]; exact Hc. }
    destruct (0 <? String.length slot0)%nat eqn:Hslot.
    + assert (Hne0 : slot0 <> "") by (intros ->; discriminate).
      destruct (String.get i0 w) as [c|] eqn:Hget.
      * assert (Hnot0 : ~ (String.length w <= i0 + 0)%nat).
        { apply string_get_Some_lt in Hget. lia. }
        destruct (String.eqb (letter c) slot0) eqn:Heq; cbn [negb].
        -- apply letter_eqb in Heq. rewrite Hshift. split.
           ++ intros (j & slot & Hj & Hne & Hlen & Hall).
              exists (S j), slot. repeat split; try assumption.
              intros [|j'] slot' Hlt Hj' Hne'; simpl in Hj'.
              ** injection Hj' as <-. exists c. by rewrite Nat.add_0_r.
              ** apply (Hall j' slot'); [lia | assumption..].
           ++ intros ([|j] & slot & Hj & Hne & Hlen & Hall); [contradiction|].
              simpl in Hj. exists j, slot. repeat split; try assumption.
              intros j' slot' Hlt Hj' Hne'.
              apply (Hall (S j') slot'); [lia | assumption..].
        -- split; [discriminate|].
           intros ([|j] & slot & Hj & Hne & Hlen & Hall); [contradiction|].
           destruct (Hall 0%nat slot0) as (c' & Hc' & Hs); [lia|done|done|].
           rewrite Nat.add_0_r, Hget in Hc'. injection Hc' as <-.
           apply letter_eqb in Hs. congruence.
      * split; [|reflexivity]. intros _. exists 0%nat, slot0.
        repeat split; [exact Hne0 | |intros j' slot' Hlt; lia].
        apply string_get_None in Hget. lia.
    + apply slot_empty in Hslot as ->. rewrite Hshift. split.
      * intros (j & slot & Hj & Hne & Hlen & Hall).
        exists (S j), slot. repeat split; try assumption.
        intros [|j'] slot' Hlt Hj' Hne'; simpl in Hj'; [congruence|].
        apply (Hall j' slot'); [lia | assumption..].
      * intros ([|j] & slot & Hj & Hne & Hlen & Hall); simpl in Hj;
          [congruence|].
        exists j, slot. repeat split; try assumption.
        intros j' slot' Hlt Hj' Hne'.
        apply (Hall (S j') slot'); [lia | assumption..].
Qed.

(** On a dict every word of the snapshot is still a key when its turn
    comes, so the outcome of the loop is decided entry by entry. *)
Lemma eliminate_loop_outcome (pre suf : pool) game found contra :
  dict_wf (pre ++ suf) ->
  fst (eliminate_loop (dict_keys suf) (pre ++ suf) game found contra)
  = if existsb (raises_on game found contra) suf
    then Raise IndexError else Return tt.
Proof.
  unfold dict_wf. revert pre.
  induction suf as [|[w S] suf IH]; intros pre Hwf; [reflexivity|].
  cbn [dict_keys map fst eliminate_loop existsb].
  change (map fst suf) with (dict_keys suf).
  rewrite dict_keys_app in Hwf. cbn [dict_keys map fst] in Hwf.
  change (map fst suf) with (dict_keys suf) in Hwf.
  apply NoDup_app in Hwf as (Hpre & Hdisj & Hsuf).
  apply NoDup_cons in Hsuf as [Hw Hsuf].
  assert (Hwpre : w ∉ dict_keys pre).
  { intros Hin. apply (Hdisj w Hin). left. }
  assert (Hwf' : NoDup (dict_keys (pre ++ suf))).
  { rewrite dict_keys_app. apply NoDup_app. repeat split; [done| |done].
    intros x Hx Hx'. apply (Hdisj x Hx). by right. }
  assert (Hwf'' : NoDup (dict_keys ((pre ++ [(w, S)]) ++ suf))).
  { rewrite <- app_assoc. cbn [app]. rewrite dict_keys_app.
    cbn [dict_keys map fst]. change (map fst suf) with (dict_keys suf).
    apply NoDup_app. repeat split; [done|done|]. by apply NoDup_cons. }
  rewrite dict_get_app_r by done. cbn [dict_get].
  rewrite decide_True by reflexivity.
  rewrite dict_pop_app_r by done. cbn [dict_pop].
  rewrite decide_True by reflexivity.
  unfold raises_on at 1. cbn [fst snd].
  destruct (len (S ∩ found) =? len found)%nat; cbn [negb andb];
    [|by apply IH].
  destruct (0 <? len (S ∩ contra))%nat; cbn [negb andb]; [by apply IH|].
  destruct (shared_position w game 0) as [[|]|e] eqn:Hpos; cbn [orb].
  - by apply IH.
  - specialize (IH (pre ++ [(w, S)]) Hwf'').
    rewrite <- app_assoc in IH. exact IH.
  - apply shared_position_exn in Hpos as ->. reflexivity.
Qed.

(** X7: the only exception [eliminate] can raise on a dict is
    [IndexError] (never [KeyError]: the snapshot of the keys stays valid,
    since each turn pops no word but its own), and it raises it exactly when
    some entry passes both set tests and the board has a non-empty slot
    past the end of its word, the word matching the board before that
    slot. *)
Theorem eliminate_errors (cands : pool) (game : list string)
    (found contra : gset ascii) :
  dict_wf cands ->
  (fst (eliminate cands game found contra) = Return tt
   \/ fst (eliminate cands game found contra) = Raise IndexError)
  /\ (fst (eliminate cands game found contra) = Raise IndexError <->
      exists w S i,
        (w, S) ∈ cands
        /\ len (S ∩ found) = len found
        /\ len (S ∩ contra) = 0%nat
        /\ slot_past_end w game i).
Proof.
  intros Hwf. unfold eliminate. cbv zeta.
  pose proof (eliminate_loop_outcome [] cands game found contra Hwf) as Hout.
  cbn [app] in Hout. rewrite Hout. clear Hout.
  destruct (existsb (raises_on game found contra) cands) eqn:Hex.
  - split; [by right|]. split; [intros _|reflexivity].
    apply existsb_exists in Hex as ([w S] & Hin & Hraise).
    unfold raises_on in Hraise. cbn [fst snd] in Hraise.
    apply andb_true_iff in Hraise as [Hsets Hpos].
    apply andb_true_iff in Hsets as [H1 H2].
    apply Nat.eqb_eq in H1. apply negb_true_iff, Nat.ltb_ge in H2.
    destruct (shared_position w game 0) as [b|e] eqn:Hshared; [discriminate|].
    pose proof (shared_position_exn _ _ _ _ Hshared) as ->.
    apply shared_position_raise in Hshared
      as (i & slot & Hi & Hne & Hlen & Hall).
    exists w, S, i. split; [by apply list_elem_of_In|].
    split; [exact H1|]. split; [lia|].
    exists slot. repeat split; assumption.
  - split; [by left|]. split; [discriminate|].
    intros (w & S & i & Hin & H1 & H2 & slot & Hi & Hne & Hlen & Hall).
    exfalso. apply not_true_iff_false in Hex. apply Hex.
    apply existsb_exists. exists (w, S). split; [by apply list_elem_of_In|].
    unfold raises_on. cbn [fst snd].
    rewrite H1, H2, Nat.eqb_refl. cbn [negb andb Nat.ltb Nat.leb].
    assert (Hraise : shared_position w game 0 = Raise IndexError).
    { apply shared_position_raise. exists i, slot. repeat split; assumption. }
    by rewrite Hraise.
Qed.

Lemma eliminate_errors_witness :
  fst (eliminate [("ab", set_of "ab"); ("cd", set_of "cd")] [""; ""; "c"]
                 (set_of "b") ∅) = Raise IndexError
  <-> exists w S i,
        (w, S) ∈ [("ab", set_of "ab"); ("cd", set_of "cd")]
        /\ len (S ∩ set_of "b") = len (set_of "b")
        /\ len (S ∩ ∅) = 0%nat
        /\ slot_past_end w [""; ""; "c"] i.
Proof.
  apply (eliminate_errors [("ab", set_of "ab"); ("cd", set_of "cd")]
                          [""; ""; "c"] (set_of "b") ∅).
  by_evaluation.
Defined.

(** ** The pool built from the word list *)

Section dict_set_facts.
Context {K V : Type} `{EqDecision K}.
Implicit Types (d : dict K V) (k : K) (v : V).

Lemma dict_set_get d k v k' :
  dict_get k' (dict_set k v d)
  = if decide (k' = k) then Some v else dict_get k' d.
Proof.
  induction d as [|[k0 v0] d IH]; simpl.
  - destruct (decide (k' = k)); reflexivity.
  - destruct (decide (k = k0)) as [->|Hk]; simpl.
    + destruct (decide (k' = k0)); reflexivity.
    + rewrite IH.
      destruct (decide (k' = k0)) as [Hk0|Hk0], (decide (k' = k)) as [Hk'|Hk'];
        try reflexivity; congruence.
Qed.

Lemma dict_set_wf d k v : dict_wf d -> dict_wf (dict_set k v d).
Proof.
  unfold dict_wf. induction d as [|[k0 v0] d IH]; simpl; intros Hwf.
  - apply NoDup_singleton.
  - apply NoDup_cons in Hwf as [Hk0 Hwf].
    destruct (decide (k = k0)) as [->|Hne]; simpl.
    + by apply NoDup_cons.
    + apply NoDup_cons. split; [|auto].
      intros Hin. apply dict_set_keys_elem_of in Hin as [->|Hin]; auto.
Qed.

Lemma dict_get_Some_iff d k v :
  dict_wf d -> dict_get k d = Some v <-> (k, v) ∈ d.
Proof.
  intros Hwf. split; [apply dict_get_Some_elem_of | by apply dict_get_elem_of].
Qed.

Lemma dict_get_is_Some_keys d k : is_Some (dict_get k d) <-> k ∈ dict_keys d.
Proof.
  split.
  - intros [v Hv]. by eapply dict_get_Some_keys.
  - intros Hin. destruct (dict_get k d) eqn:Hget; [eauto|].
    by apply dict_get_None_keys in Hget.
Qed.

(** Storing under keys that are all new appends the entries in order. *)
Lemma fold_dict_set_new (f : K -> V) (ks : list K) d0 :
  NoDup (dict_keys d0 ++ ks) ->
  fold_left (fun d k => dict_set k (f k) d) ks d0
  = d0 ++ map (fun k => (k, f k)) ks.
Proof.
  revert d0. induction ks as [|k ks IH]; intros d0 Hnd; simpl.
  - by rewrite app_nil_r.
  - assert (Hk : k ∉ dict_keys d0).
    { apply NoDup_app in Hnd as (_ & Hd & _). intros Hin.
      apply (Hd k Hin). left. }
    replace (dict_set k (f k) d0) with (d0 ++ [(k, f k)]).
    + rewrite IH.
      * by rewrite <- app_assoc.
      * rewrite dict_keys_app. simpl. by rewrite <- app_assoc.
    + rewrite <- (app_nil_r d0) at 2. by rewrite dict_set_app_r.
Qed.
End dict_set_facts.

Lemma make_cands_get (data : list string) (d0 : pool) (w : string) :
  dict_get w (fold_left (fun d k => dict_set k (set_of k) d) data d0)
  = if decide (w ∈ data) then Some (set_of w) else dict_get w d0.
Proof.
  revert d0. induction data as [|k data IH]; intros d0; cbn [fold_left].
  - destruct (decide (w ∈ [])) as [Hin|Hin]; [|reflexivity].
    by apply elem_of_nil in Hin.
  - rewrite IH, dict_set_get.
    destruct (decide (w ∈ k :: data)) as [Hin|Hin].
    + apply elem_of_cons in Hin as [->|Hin].
      * destruct (decide (k ∈ data)); [reflexivity|]. by rewrite decide_True.
      * by rewrite decide_True.
    + rewrite not_elem_of_cons in Hin. destruct Hin as [Hne Hin].
      by rewrite !decide_False.
Qed.

Lemma make_cands_lookup (data : list string) (w : string) :
  dict_get w (make_cands data)
  = if decide (w ∈ data) then Some (set_of w) else None.
Proof. apply (make_cands_get data [] w). Qed.

Lemma make_cands_wf (data : list string) : dict_wf (make_cands data).
Proof.
  unfold make_cands.
  assert (Hgen : forall d0 : pool, dict_wf d0 ->
            dict_wf (fold_left (fun d k => dict_set k (set_of k) d) data d0)).
  { induction data as [|k data IH]; intros d0 Hwf; simpl; [exact Hwf|].
    by apply IH, dict_set_wf. }
  apply Hgen. constructor.
Qed.

(** X8: the pool [{k: set(k) for k in data}] holds every word of the list
    once, whatever its repetitions, each with its own letter set; looking up
    a word of the list gives that set, and a list without repetitions gives
    its words in order. *)
Theorem make_cands_pool (data : list string) :
  dict_wf (make_cands data)
  /\ (forall w S, (w, S) ∈ make_cands data <-> w ∈ data /\ S = set_of w)
  /\ (forall w, w ∈ dict_keys (make_cands data) <-> w ∈ data)
  /\ (forall w, dict_get w (make_cands data)
                = if decide (w ∈ data) then Some (set_of w) else None)
  /\ (length (make_cands data) <= length data)%nat
  /\ (NoDup data -> make_cands data = map (fun k => (k, set_of k)) data).
Proof.
  pose proof (make_cands_wf data) as Hwf.
  assert (Hget : forall w, dict_get w (make_cands data)
                 = if decide (w ∈ data) then Some (set_of w) else None).
  { intros w. apply make_cands_lookup. }
  assert (Hkeys : forall w, w ∈ dict_keys (make_cands data) <-> w ∈ data).
  { intros w. rewrite <- dict_get_is_Some_keys, Hget.
    destruct (decide (w ∈ data)) as [Hin|Hin].
    - split; [done | eauto].
    - split; [intros [? ?]; discriminate | done]. }
  split; [exact Hwf|]. split; [|split; [exact Hkeys|split; [exact Hget|split]]].
  - intros w S. rewrite <- (dict_get_Some_iff _ _ _ Hwf), Hget.
    destruct (decide (w ∈ data)) as [Hin|Hin].
    + split; [intros [= <-]; done | intros [_ ->]; done].
    + split; [discriminate | tauto].
  - rewrite <- (length_map fst (make_cands data)).
    apply NoDup_incl_length.
    + apply NoDup_ListNoDup, Hwf.
    + intros w Hw. apply list_elem_of_In. apply Hkeys.
      by apply list_elem_of_In.
  - intros Hnd. unfold make_cands.
    by rewrite (fold_dict_set_new set_of data []).
Qed.

Lemma make_cands_pool_witness :
  make_cands small_data = map (fun k => (k, set_of k)) small_data.
Proof.
  apply (make_cands_pool small_data). by_evaluation.
Defined.

(** A list of words of one length that holds the secret makes a pool fit for
    the game. *)
Lemma make_cands_game_pool (data : list string) (secret : string) :
  secret ∈ data ->
  Forall (fun w => String.length w = String.length secret) data ->
  game_pool secret (make_cands data).
Proof.
  intros Hin Hlen. split; [apply make_cands_wf|]. split.
  - apply dict_get_Some_elem_of. rewrite make_cands_lookup.
    by rewrite decide_True.
  - rewrite Forall_forall in *. intros w Hw. apply Hlen.
    rewrite <- dict_get_is_Some_keys, make_cands_lookup in Hw.
    destruct (decide (w ∈ data)); [done|]. by destruct Hw.
Qed.

(** ** Whole games *)

(** Whatever [choose_guess] returns on the buckets of a pool is a word of
    that pool. *)
Lemma choose_guess_in_pool (usage_vowels : usage_table) (cands : pool)
    (usage : usage_table) (has_vowels : bool) (word : string) :
  choose_guess (feature_bucket usage_vowels cands usage has_vowels)
  = Return word ->
  word ∈ dict_keys cands.
Proof.
  rewrite feature_bucket_map. unfold choose_guess.
  set (b := map _ _). destruct (dict_keys b) as [|k ks]; [discriminate|].
  destruct (dict_get (fold_left Nat.max ks k) b) as [[|word' ws]|] eqn:Hget;
    try discriminate.
  intros [= ->]. apply dict_get_Some_elem_of in Hget.
  assert (Hin : word ∈ bucket_words b).
  { unfold bucket_words. apply list_elem_of_In, in_concat.
    exists (word :: ws). split; [|by left].
    apply in_map_iff. exists (fold_left Nat.max ks k, word :: ws).
    split; [reflexivity | by apply list_elem_of_In]. }
  subst b. rewrite sort_bucket_words, fill_buckets_words in Hin. exact Hin.
Qed.

(** On a pool that is not empty [choose_guess] finds a word. *)
Lemma choose_guess_on_pool (usage_vowels : usage_table) (cands : pool)
    (usage : usage_table) (has_vowels : bool) :
  cands <> [] ->
  exists word,
    choose_guess (feature_bucket usage_vowels cands usage has_vowels)
    = Return word.
Proof.
  intros Hne. rewrite feature_bucket_map.
  set (uv := rank_weights usage_vowels).
  set (filled := fill_buckets (letter_class has_vowels) cands []).
  destruct (choose_guess_returns (map (sort_bucket uv) filled))
    as (k & word & ws & Hret & _).
  - intros Hnil.
    pose proof (sort_bucket_words uv filled) as Hperm.
    rewrite Hnil in Hperm. subst filled.
    rewrite fill_buckets_words in Hperm. cbn in Hperm.
    destruct cands as [|e cands]; [contradiction|].
    by apply Permutation_nil_cons in Hperm.
  - intros k ws Hin. apply elem_of_sort_bucket in Hin as (ws0 & Hin & ->).
    apply fill_buckets_elem_of in Hin as [_ Hne0].
    intros Hnil. by apply sorted_reverse_nil_inv in Hnil.
  - eauto.
Qed.

(** One elimination in a game: it returns, and the pool stays fit. *)
Lemma eliminate_game_pool (cands : pool) (guess secret : string) :
  game_pool secret cands ->
  exists cands',
    eliminate cands (fst (play_wordle guess secret))
              (snd (play_wordle guess secret))
              (set_of guess ∖ snd (play_wordle guess secret))
    = (Return tt, cands')
    /\ game_pool secret cands'.
Proof.
  intros (Hwf & Hin & Hlen).
  pose proof (fixed_length_board_fits cands guess secret Hlen) as Hfit.
  rewrite eliminate_filter by assumption. eexists. split; [reflexivity|].
  split; [by apply filter_pool_wf|]. split.
  - apply list_elem_of_In, filter_In. split; [by apply list_elem_of_In|].
    apply survives_spec_keeps, secret_spec_keeps.
  - rewrite Forall_forall in *. intros w Hw. apply Hlen.
    eapply sublist_subseteq; [|exact Hw].
    apply dict_keys_sublist, list_filter_sublist.
Qed.

Lemma game_pool_guess (usage_vowels : usage_table) (cands : pool)
    (usage : usage_table) (has_vowels : bool) (secret : string) :
  game_pool secret cands ->
  exists guess,
    choose_guess (feature_bucket usage_vowels cands usage has_vowels)
    = Return guess
    /\ String.length guess = String.length secret.
Proof.
  intros (Hwf & Hin & Hlen).
  destruct (choose_guess_on_pool usage_vowels cands usage has_vowels)
    as [guess Hguess].
  { intros ->. by apply elem_of_nil in Hin. }
  exists guess. split; [exact Hguess|].
  apply choose_guess_in_pool in Hguess.
  rewrite Forall_forall in Hlen. by apply Hlen.
Qed.

Lemma solved_board_is_secret (guess secret : string) :
  String.length guess = String.length secret ->
  solved_game (fst (play_wordle guess secret)) = true ->
  String.concat "" (fst (play_wordle guess secret)) = secret.
Proof.
  unfold play_wordle. cbn [fst]. intros Hlen Hsolved.
  apply zip_board_solved, agree_same_length in Hsolved; [|exact Hlen].
  subst guess. apply join_zip_board_same.
Qed.

(** One pass of the loop body on a fit pool: no exception, the pool stays
    fit, and a solved result carries the secret. *)
Lemma loop_body_game (usage_vowels : usage_table) (secret : string)
    (uv uc : usage_table) (attempt : Z) (w : world) :
  game_pool secret (w_cands w) ->
  exists r w',
    loop_body usage_vowels secret uv uc attempt w = (Return r, w')
    /\ game_pool secret (w_cands w')
    /\ match r with
       | inl h => h_solved h = true /\ h_board h = secret
       | inr _ => True
       end.
Proof.
  intros Hpool.
  unfold loop_body, mbind, M_bind, mret, M_ret, lift, read_cands,
    call_play_wordle, call_eliminate.
  cbn [w_cands w_evaluated].
  destruct (game_pool_guess usage_vowels (w_cands w) uv true secret Hpool)
    as (g1 & -> & Hlen1).
  cbv beta iota.
  pose proof (solved_board_is_secret g1 secret Hlen1) as Hsolved1.
  destruct (eliminate_game_pool (w_cands w) g1 secret Hpool)
    as (cands1 & Helim1 & Hpool1).
  destruct (play_wordle g1 secret) as [board1 found1].
  cbn [fst snd] in Hsolved1, Helim1. cbv beta iota.
  destruct (solved_game board1); cbv beta iota; cbn [w_cands w_evaluated].
  { eexists _, _. split; [reflexivity|]. split; [exact Hpool|].
    split; [reflexivity | by apply Hsolved1]. }
  rewrite Helim1. cbv beta iota. cbn [w_cands w_evaluated].
  destruct (game_pool_guess usage_vowels cands1 uv false secret Hpool1)
    as (g2 & -> & Hlen2).
  cbv beta iota.
  pose proof (solved_board_is_secret g2 secret Hlen2) as Hsolved2.
  destruct (eliminate_game_pool cands1 g2 secret Hpool1)
    as (cands2 & Helim2 & Hpool2).
  destruct (play_wordle g2 secret) as [board2 found2].
  cbn [fst snd] in Hsolved2, Helim2. cbv beta iota.
  destruct (solved_game board2); cbv beta iota; cbn [w_cands w_evaluated].
  { eexists _, _. split; [reflexivity|]. split; [exact Hpool1|].
    split; [reflexivity | by apply Hsolved2]. }
  rewrite Helim2. cbv beta iota. cbn [w_cands w_evaluated].
  eexists _, _. split; [reflexivity|]. split; [exact Hpool2 | exact I].
Qed.

Lemma compute_wordle_loop_game (usage_vowels : usage_table) (fuel : nat)
    (secret : string) (uv uc : usage_table) (max_tries attempt : Z)
    (board : option (list string)) (w : world) r w' :
  game_pool secret (w_cands w) ->
  (board = None -> (attempt <= max_tries)%Z) ->
  compute_wordle_loop usage_vowels fuel secret uv uc max_tries attempt board w
  = Some (r, w') ->
  game_pool secret (w_cands w')
  /\ exists h, r = Return h /\ (h_solved h = true -> h_board h = secret).
Proof.
  revert attempt board w.
  induction fuel as [|fuel IH]; intros attempt board w Hpool Hboard;
    cbn [compute_wordle_loop];
    destruct (Z.leb_spec attempt max_tries) as [Hle|Hgt]; try discriminate.
  1,3: destruct board as [b|]; [|specialize (Hboard eq_refl); lia];
       intros [= <- <-]; (split; [exact Hpool|]);
       eexists; (split; [reflexivity|]); discriminate.
  destruct (loop_body_game usage_vowels secret uv uc attempt w Hpool)
    as (r0 & w0 & -> & Hpool0 & Hr0).
  destruct r0 as [h|[attempt' board']].
  - intros [= <- <-]. split; [exact Hpool0|]. exists h.
    split; [reflexivity|]. intros _. apply Hr0.
  - apply IH; [exact Hpool0 | discriminate].
Qed.

(** X9: a game on a fit pool (each key once, the secret among the keys with
    its letter set, all words as long as the secret) with [max_tries >= 1]
    ends without an exception: [compute_wordle] returns a dict.  The secret
    is never eliminated, the pool stays fit, and a result marked solved has
    the secret as its board. *)
Theorem compute_wordle_game (usage_vowels : usage_table) (cands : pool)
    (secret : string) (uv uc : usage_table) (max_tries : Z) :
  game_pool secret cands ->
  (1 <= max_tries)%Z ->
  exists h w,
    compute_wordle usage_vowels cands secret uv uc max_tries
    = Some (Return h, w)
    /\ (h_solved h = true -> h_board h = secret)
    /\ secret ∈ dict_keys (w_cands w)
    /\ game_pool secret (w_cands w).
Proof.
  intros Hpool Hmax.
  destruct (compute_wordle_total usage_vowels cands secret uv uc max_tries)
    as (r & w & Hrun).
  pose proof Hrun as Hrun'. unfold compute_wordle in Hrun'.
  apply compute_wordle_loop_game in Hrun'
    as (Hpool' & h & -> & Hh); [|exact Hpool|intros _; lia].
  exists h, w. split; [exact Hrun|]. split; [exact Hh|].
  split; [|exact Hpool'].
  destruct Hpool' as (_ & Hin & _). by eapply elem_of_dict_keys.
Qed.

Lemma compute_wordle_game_witness :
  exists h w,
    compute_wordle notebook_usage_vowels test_cands "siste"
                   notebook_usage_vowels [] 6
    = Some (Return h, w)
    /\ (h_solved h = true -> h_board h = "siste")
    /\ "siste" ∈ dict_keys (w_cands w)
    /\ game_pool "siste" (w_cands w).
Proof.
  apply (compute_wordle_game notebook_usage_vowels test_cands "siste"
                             notebook_usage_vowels [] 6).
  - unfold game_pool. repeat split; by_evaluation.
  - lia.
Defined.

(** X10: a game set up as the simulation does it, the pool built from the
    word list and the secret one of its words, all of one length, never ends
    in an exception, and a solved result names the secret. *)
Theorem simulated_game_returns (usage_vowels : usage_table)
    (data : list string) (secret : string) (uv uc : usage_table)
    (max_tries : Z) :
  secret ∈ data ->
  Forall (fun w => String.length w = String.length secret) data ->
  (1 <= max_tries)%Z ->
  exists h w,
    compute_wordle usage_vowels (make_cands data) secret uv uc max_tries
    = Some (Return h, w)
    /\ (h_solved h = true -> h_board h = secret).
Proof.
  intros Hin Hlen Hmax.
  pose proof (make_cands_game_pool data secret Hin Hlen) as Hpool.
  destruct (compute_wordle_total usage_vowels (make_cands data) secret uv uc
                                 max_tries) as (r & w & Hrun).
  pose proof Hrun as Hrun'. unfold compute_wordle in Hrun'.
  apply compute_wordle_loop_game in Hrun'
    as (_ & h & -> & Hh); [|exact Hpool|intros _; lia].
  eauto.
Qed.

Lemma simulated_game_returns_witness :
  exists h w,
    compute_wordle notebook_usage_vowels (make_cands small_data) "rebut"
                   notebook_usage_vowels [] 6
    = Some (Return h, w)
    /\ (h_solved h = true -> h_board h = "rebut").
Proof.
  apply (simulated_game_returns notebook_usage_vowels small_data "rebut"
                                notebook_usage_vowels [] 6).
  - by_evaluation.
  - by_evaluation.
  - lia.
Defined.

(** ** The guesses of a run and the dict it returns *)

Lemma counts_from_app (a : Z) (L1 L2 : list (Z * string)) :
  counts_from a (L1 ++ L2)
  <-> counts_from a L1 /\ counts_from (a + Z.of_nat (length L1))%Z L2.
Proof.
  revert a. induction L1 as [|e L1 IH]; intros a; cbn [app counts_from length].
  - rewrite Z.add_0_r. tauto.
  - rewrite IH.
    replace (a + 1 + Z.of_nat (length L1))%Z
      with (a + Z.of_nat (S (length L1)))%Z by lia.
    tauto.
Qed.

Lemma board_after_app (word : string) board (L1 L2 : list (Z * string)) :
  board_after word board (L1 ++ L2)
  = board_after word (board_after word board L1) L2.
Proof.
  unfold board_after. destruct L2 as [|e L2] using rev_ind.
  - by rewrite app_nil_r.
  - by rewrite app_assoc, !last_snoc.
Qed.

(** One pass of the loop body, guess by guess. *)
Lemma loop_body_log (usage_vowels : usage_table) (word : string)
    (uv uc : usage_table) (attempt : Z) (w : world) r w' :
  loop_body usage_vowels word uv uc attempt w = (r, w') ->
  exists L,
    w_evaluated w' = w_evaluated w ++ L
    /\ counts_from attempt L
    /\ Forall (fun e => snd e ∈ dict_keys (w_cands w)) L
    /\ match r with
       | Return (inl h) =>
           h_solved h = true
           /\ h_attempts h = (attempt + Z.of_nat (length L) - 1)%Z
           /\ exists g, last L = Some (h_attempts h, g)
                        /\ h_board h
                           = String.concat "" (fst (play_wordle g word))
       | Return (inr (attempt', board')) =>
           attempt' = (attempt + 2)%Z /\ length L = 2%nat
           /\ board_after word None L = Some board'
       | Raise _ => True
       end.
Proof.
  unfold loop_body, mbind, M_bind, mret, M_ret, lift, read_cands,
    call_play_wordle, call_eliminate, eliminate.
  cbn [w_cands w_evaluated].
  destruct (choose_guess _) as [g1|e1] eqn:Hg1.
  2:{ split_outcome. exists []. rewrite app_nil_r. by repeat split. }
  apply choose_guess_in_pool in Hg1.
  assert (Hfst : fst (play_wordle g1 word) = fst (play_wordle g1 word))
    by reflexivity.
  destruct (play_wordle g1 word) as [board1 found1] in Hfst at 2 |- *.
  cbn [fst] in Hfst. cbv beta iota.
  assert (H1 : counts_from attempt [(attempt, g1)]
               /\ Forall (fun e => snd e ∈ dict_keys (w_cands w))
                         [(attempt, g1)]).
  { split; [by split | by repeat constructor]. }
  destruct H1 as [Hc1 Hf1].
  destruct (solved_game board1); cbv beta iota; cbn [w_cands w_evaluated].
  { split_outcome. exists [(attempt, g1)]. cbn.
    split; [reflexivity|]. split; [exact Hc1|]. split; [exact Hf1|].
    split; [reflexivity|]. split; [lia|]. exists g1.
    split; [reflexivity | by rewrite <- Hfst]. }
  pose proof (eliminate_loop_sublist (dict_keys (w_cands w)) (w_cands w)
                board1 found1 (set_of g1 ∖ found1)) as Hsub1.
  destruct (eliminate_loop (dict_keys (w_cands w)) (w_cands w) board1 found1
              (set_of g1 ∖ found1)) as [r1 cands1].
  cbn [snd] in Hsub1. cbv beta iota. cbn [w_cands w_evaluated].
  destruct r1 as [[]|e1]; cbv beta iota; cbn [w_cands w_evaluated].
  2:{ split_outcome. exists [(attempt, g1)]. by repeat split. }
  destruct (choose_guess (feature_bucket usage_vowels cands1 uv false))
    as [g2|e2] eqn:Hg2.
  2:{ split_outcome. exists [(attempt, g1)]. by repeat split. }
  apply choose_guess_in_pool in Hg2.
  assert (Hg2' : g2 ∈ dict_keys (w_cands w)).
  { eapply sublist_subseteq; [|exact Hg2]. by apply dict_keys_sublist. }
  assert (Hfst2 : fst (play_wordle g2 word) = fst (play_wordle g2 word))
    by reflexivity.
  destruct (play_wordle g2 word) as [board2 found2] in Hfst2 at 2 |- *.
  cbn [fst] in Hfst2. cbv beta iota.
  assert (H2 : counts_from attempt [(attempt, g1); ((attempt + 1)%Z, g2)]
               /\ Forall (fun e => snd e ∈ dict_keys (w_cands w))
                         [(attempt, g1); ((attempt + 1)%Z, g2)]).
  { split; [by repeat split | by repeat constructor]. }
  destruct H2 as [Hc2 Hf2].
  destruct (solved_game board2); cbv beta iota; cbn [w_cands w_evaluated].
  { split_outcome. exists [(attempt, g1); ((attempt + 1)%Z, g2)]. cbn.
    split; [by rewrite <- app_assoc|]. split; [exact Hc2|].
    split; [exact Hf2|]. split; [reflexivity|]. split; [lia|]. exists g2.
    split; [reflexivity | by rewrite <- Hfst2]. }
  destruct (eliminate_loop (dict_keys cands1) cands1 board2 found2
              (set_of g2 ∖ found2)) as [r2 cands2].
  cbv beta iota. cbn [w_cands w_evaluated].
  destruct r2 as [[]|e2]; split_outcome;
    exists [(attempt, g1); ((attempt + 1)%Z, g2)]; cbn;
    (split; [by rewrite <- app_assoc|]); (split; [exact Hc2|]);
    (split; [exact Hf2|]); [|exact I].
  split; [lia|]. split; [reflexivity|].
  unfold board_after. cbn. by rewrite <- Hfst2.
Qed.

Lemma board_after_last (word : string) (board : option (list string))
    (L : list (Z * string)) (b : list string) :
  board_after word None L = Some b -> board_after word board L = Some b.
Proof. unfold board_after. by destruct (last L). Qed.

Lemma counts_from_bound (a m : Z) (L : list (Z * string)) :
  counts_from a L -> Forall (fun e => (fst e <= m)%Z) L -> L <> [] ->
  (a + Z.of_nat (length L) - 1 <= m)%Z.
Proof.
  revert a. induction L as [|e L IH]; intros a Hc Hall Hne; [contradiction|].
  destruct Hc as [He Hc]. apply Forall_cons in Hall as [Hm Hall].
  simpl in Hm. destruct L as [|e' L'].
  - cbn [length]. lia.
  - specialize (IH (a + 1)%Z Hc Hall ltac:(discriminate)).
    cbn [length] in *. lia.
Qed.

(** A run of the loop, guess by guess, and what the dict it returns says. *)
Lemma compute_wordle_loop_log (usage_vowels : usage_table) (fuel : nat)
    (word : string) (uv uc : usage_table) (max_tries attempt : Z)
    (board : option (list string)) (w : world) r w' :
  compute_wordle_loop usage_vowels fuel word uv uc max_tries attempt board w
  = Some (r, w') ->
  exists L,
    w_evaluated w' = w_evaluated w ++ L
    /\ counts_from attempt L
    /\ Forall (fun e => snd e ∈ dict_keys (w_cands w)) L
    /\ match r with
       | Return h =>
           (exists b, board_after word board L = Some b
                      /\ h_board h = String.concat "" b)
           /\ if h_solved h
              then L <> []
                   /\ h_attempts h = (attempt + Z.of_nat (length L) - 1)%Z
              else h_attempts h = (attempt + Z.of_nat (length L))%Z
                   /\ (max_tries < h_attempts h)%Z
                   /\ ((h_attempts h - 2 <= max_tries)%Z \/ L = [])
                   /\ Z.odd (h_attempts h) = Z.odd attempt
       | Raise e => e = UnboundLocalError -> L = [] /\ board = None
       end.
Proof.
  revert attempt board w.
  induction fuel as [|fuel IH]; intros attempt board w;
    cbn [compute_wordle_loop];
    destruct (Z.leb_spec attempt max_tries) as [Hle|Hgt]; try discriminate.
  1,3: destruct board as [b|]; intros [= <- <-]; exists [];
       rewrite app_nil_r; (split; [reflexivity|]); (split; [exact I|]);
       (split; [apply List.Forall_nil|]); try (intros _; by split);
       cbn [h_solved h_board h_attempts length board_after last];
       (split; [eexists; split; reflexivity|]);
       (split; [lia|]); (split; [lia|]); (split; [by right | reflexivity]).
  destruct (loop_body usage_vowels word uv uc attempt w) as [r0 w0] eqn:Hbody.
  pose proof (loop_body_cases _ _ _ _ _ _ _ _ Hbody) as (Hsub0 & _ & Hexn0).
  apply loop_body_log in Hbody as (L0 & Hlog0 & Hc0 & Hf0 & Hr0).
  destruct r0 as [[h|[attempt' board']]|e].
  - intros [= <- <-]. exists L0. split; [exact Hlog0|]. split; [exact Hc0|].
    split; [exact Hf0|]. destruct Hr0 as (Hs & Ha & g & Hlast & Hb).
    split.
    + exists (fst (play_wordle g word)). split; [|exact Hb].
      unfold board_after. by rewrite Hlast.
    + rewrite Hs. split; [|exact Ha]. intros ->. discriminate.
  - destruct Hr0 as (-> & Hlen0 & Hb0). intros Hrun.
    apply IH in Hrun as (L & Hlog & Hc & Hf & Hr).
    exists (L0 ++ L). split; [by rewrite Hlog, Hlog0, <- app_assoc|].
    split; [apply counts_from_app; rewrite Hlen0; by split|].
    split.
    { apply Forall_app. split; [exact Hf0|].
      eapply Forall_impl; [exact Hf|]. intros e He. simpl in He.
      eapply sublist_subseteq; [|exact He]. by apply dict_keys_sublist. }
    destruct r as [h|e].
    + destruct Hr as [(b & Hb & Hjoin) Hh]. split.
      * exists b. split; [|exact Hjoin].
        rewrite board_after_app.
        by rewrite (board_after_last word board L0 board').
      * rewrite length_app, Hlen0. destruct (h_solved h).
        -- destruct Hh as [_ Ha]. split; [|lia].
           destruct L0; [discriminate | discriminate].
        -- destruct Hh as (Ha & Hlt & Hor & Hodd).
           split; [lia|]. split; [exact Hlt|]. split.
           ++ left. destruct Hor as [Hor| ->]; [lia|]. simpl in Ha. lia.
           ++ rewrite Hodd.
              replace (attempt + 2)%Z with (attempt + 2 * 1)%Z by lia.
              apply Z.odd_add_mul_2.
    + intros He. destruct (Hr He) as [_ Habs]. discriminate.
  - intros [= <- <-]. exists L0. split; [exact Hlog0|]. split; [exact Hc0|].
    split; [exact Hf0|]. intros ->. contradiction.
Qed.

(** X11: the guesses that a run of [compute_wordle] evaluates are numbered
    1, 2, 3, ... without a gap, each is a key of the pool the run was given,
    and there are at most [max_tries + 1] of them. *)
Theorem compute_wordle_guesses (usage_vowels : usage_table) (cands : pool)
    (word : string) (uv uc : usage_table) (max_tries : Z) r w :
  compute_wordle usage_vowels cands word uv uc max_tries = Some (r, w) ->
  counts_from 1 (w_evaluated w)
  /\ Forall (fun e => snd e ∈ dict_keys cands) (w_evaluated w)
  /\ (Z.of_nat (length (w_evaluated w)) <= Z.max 0 (max_tries + 1))%Z.
Proof.
  intros Hrun.
  pose proof (compute_wordle_attempts_bound _ _ _ _ _ _ _ _ Hrun)
    as (Hbound & _ & _).
  unfold compute_wordle in Hrun.
  apply compute_wordle_loop_log in Hrun as (L & Hlog & Hc & Hf & _).
  cbn [w_cands w_evaluated app] in *. subst L.
  split; [exact Hc|]. split; [exact Hf|].
  destruct (w_evaluated w) as [|e L] eqn:HL; [simpl; lia|].
  assert (Hb : (1 + Z.of_nat (length (e :: L)) - 1 <= max_tries + 1)%Z).
  { apply counts_from_bound; [exact Hc| |discriminate].
    eapply Forall_impl; [exact Hbound|]. intros x Hx. simpl in Hx. lia. }
  lia.
Qed.

Lemma compute_wordle_guesses_witness :
  counts_from 1 [(1%Z, "siste"); (2%Z, "humph")]
  /\ Forall (fun e => snd e ∈ dict_keys (make_cands small_data))
            [(1%Z, "siste"); (2%Z, "humph")]
  /\ (Z.of_nat (length [(1%Z, "siste"); (2%Z, "humph")]) <= Z.max 0 (1 + 1))%Z.
Proof.
  exact (compute_wordle_guesses notebook_usage_vowels (make_cands small_data)
           "humph" notebook_usage_vowels [] 1
           (Return {| h_board := "humph"; h_attempts := 2; h_solved := true |})
           {| w_cands := [("humph", set_of "humph")];
              w_evaluated := [(1%Z, "siste"); (2%Z, "humph")] |}
           eq_refl).
Defined.

(** X12: what the returned dict says.  Its board is the joined board of the
    last guess evaluated.  If it is marked solved, [attempts] is the number
    of guesses evaluated.  If not, [attempts] is that number plus one, an odd
    number above [max_tries]: [max_tries + 1] or [max_tries + 2]. *)
Theorem compute_wordle_result (usage_vowels : usage_table) (cands : pool)
    (word : string) (uv uc : usage_table) (max_tries : Z) h w :
  compute_wordle usage_vowels cands word uv uc max_tries
  = Some (Return h, w) ->
  (exists n g,
      last (w_evaluated w) = Some (n, g)
      /\ h_board h = String.concat "" (fst (play_wordle g word)))
  /\ if h_solved h
     then h_attempts h = Z.of_nat (length (w_evaluated w))
     else h_attempts h = (Z.of_nat (length (w_evaluated w)) + 1)%Z
          /\ (max_tries < h_attempts h <= max_tries + 2)%Z
          /\ Z.odd (h_attempts h) = true.
Proof.
  unfold compute_wordle. intros Hrun.
  apply compute_wordle_loop_log in Hrun
    as (L & Hlog & _ & _ & (b & Hb & Hjoin) & Hh).
  cbn [w_cands w_evaluated app] in *. subst L.
  assert (Hlast : exists n g, last (w_evaluated w) = Some (n, g)
                              /\ b = fst (play_wordle g word)).
  { unfold board_after in Hb.
    destruct (last (w_evaluated w)) as [[n g]|]; [|discriminate].
    injection Hb as <-. eauto. }
  destruct Hlast as (n & g & Hlast & ->).
  split; [eauto|]. destruct (h_solved h).
  - destruct Hh as [_ Ha]. lia.
  - destruct Hh as (Ha & Hlt & Hor & Hodd). split; [lia|]. split; [|exact Hodd].
    split; [exact Hlt|]. destruct Hor as [Hor|Hnil]; [lia|].
    rewrite Hnil in Hlast. discriminate.
Qed.

Lemma compute_wordle_result_witness :
  (exists n g,
      last [(1%Z, "siste"); (2%Z, "humph")] = Some (n, g)
      /\ "humph" = String.concat "" (fst (play_wordle g "humph")))
  /\ 2%Z = Z.of_nat (length [(1%Z, "siste"); (2%Z, "humph")]).
Proof.
  exact (compute_wordle_result notebook_usage_vowels (make_cands small_data)
           "humph" notebook_usage_vowels [] 1
           {| h_board := "humph"; h_attempts := 2; h_solved := true |}
           {| w_cands := [("humph", set_of "humph")];
              w_evaluated := [(1%Z, "siste"); (2%Z, "humph")] |}
           eq_refl).
Defined.

(** X13: on an empty pool a run with [max_tries >= 1] evaluates no guess and
    ends with the [ValueError] of [max] on the empty list of bucket keys. *)
Theorem compute_wordle_empty_pool (usage_vowels : usage_table)
    (word : string) (uv uc : usage_table) (max_tries : Z) :
  (1 <= max_tries)%Z ->
  compute_wordle usage_vowels [] word uv uc max_tries
  = Some (Raise ValueError, {| w_cands := []; w_evaluated := [] |}).
Proof.
  intros Hmax. unfold compute_wordle.
  destruct (Z.to_nat max_tries) as [|fuel] eqn:Hfuel; [lia|].
  cbn [compute_wordle_loop].
  destruct (Z.leb_spec 1 max_tries); [reflexivity | lia].
Qed.

Lemma compute_wordle_empty_pool_witness :
  compute_wordle notebook_usage_vowels [] "onset" notebook_usage_vowels [] 6
  = Some (Raise ValueError, {| w_cands := []; w_evaluated := [] |}).
Proof.
  apply (compute_wordle_empty_pool notebook_usage_vowels "onset"
                                   notebook_usage_vowels [] 6).
  lia.
Defined.

(** ** most_shared *)

Lemma elements_once : set_iter_once elements.
Proof.
  intros s. split; [apply NoDup_elements | intros x; apply elem_of_elements].
Qed.

Lemma dict_incr_get (l : ascii) (d : dict ascii nat) (l' : ascii) :
  dict_get l' (dict_incr l d)
  = if decide (l' = l) then Some (default 0 (dict_get l d) + 1)%nat
    else dict_get l' d.
Proof.
  unfold dict_incr. destruct (dict_get l d) as [n|]; by rewrite dict_set_get.
Qed.

Lemma dict_incr_wf (l : ascii) (d : dict ascii nat) :
  dict_wf d -> dict_wf (dict_incr l d).
Proof.
  unfold dict_incr. destruct (dict_get l d); apply dict_set_wf.
Qed.

(** Counting the letters of one word: each letter handed out goes up by one,
    the others stay. *)
Lemma count_letters_get (ls : list ascii) (d : dict ascii nat) (l : ascii) :
  NoDup ls ->
  dict_get l (fold_left (fun letters letter => dict_incr letter letters) ls d)
  = if decide (l ∈ ls) then Some (default 0 (dict_get l d) + 1)%nat
    else dict_get l d.
Proof.
  revert d. induction ls as [|x ls IH]; intros d Hnd; cbn [fold_left].
  - destruct (decide (l ∈ [])) as [Hin|Hin]; [|reflexivity].
    by apply elem_of_nil in Hin.
  - apply NoDup_cons in Hnd as [Hx Hnd]. rewrite IH by exact Hnd.
    rewrite dict_incr_get.
    destruct (decide (l = x)) as [->|Hne].
    + rewrite (decide_False (P := x ∈ ls)) by exact Hx.
      rewrite decide_True by left. reflexivity.
    + destruct (decide (l ∈ ls)) as [Hin|Hin].
      * rewrite decide_True by (by right). reflexivity.
      * rewrite decide_False; [reflexivity|].
        rewrite not_elem_of_cons. tauto.
Qed.

Lemma count_letters_wf (ls : list ascii) (d : dict ascii nat) :
  dict_wf d ->
  dict_wf (fold_left (fun letters letter => dict_incr letter letters) ls d).
Proof.
  revert d. induction ls as [|x ls IH]; intros d Hwf; cbn [fold_left];
    [exact Hwf|]. by apply IH, dict_incr_wf.
Qed.

Lemma words_with_cons (l : ascii) (w : string) (data : list string) :
  words_with l (w :: data)
  = ((if decide (l ∈ set_of w) then 1 else 0) + words_with l data)%nat.
Proof.
  unfold words_with. cbn [List.filter].
  destruct (decide (l ∈ set_of w)) as [Hin|Hin].
  - by rewrite bool_decide_true.
  - by rewrite bool_decide_false.
Qed.

Section most_shared_facts.
Variable set_iter : gset ascii -> list ascii.
Hypothesis Honce : set_iter_once set_iter.

(** The loop over the words, from any state [(p0, d0)] on. *)
Lemma most_shared_loop (shared : gset ascii) (data : list string)
    (p0 : list (string * nat)) (d0 : dict ascii nat) :
  dict_wf d0 ->
  let acc := fold_left (most_shared_word set_iter shared) data (p0, d0) in
  fst acc
  = p0 ++ map (fun w => (w, word_overlap shared w))
              (List.filter (fun w => (0 <? word_overlap shared w)%nat) data)
  /\ dict_wf (snd acc)
  /\ forall l,
       dict_get l (snd acc)
       = if decide (letter_count shared l data = 0%nat) then dict_get l d0
         else Some (default 0 (dict_get l d0) + letter_count shared l data)%nat.
Proof.
  revert p0 d0. induction data as [|w data IH]; intros p0 d0 Hwf acc.
  - subst acc. cbn. rewrite app_nil_r. repeat split; [exact Hwf|].
    intros l. unfold letter_count, words_with. cbn.
    by destruct (decide (l ∈ shared)).
  - subst acc. cbn [fold_left]. unfold most_shared_word at 2.
    fold (word_overlap shared w).
    set (d1 := fold_left (fun letters letter => dict_incr letter letters)
                         (set_iter (set_of w ∩ shared)) d0).
    assert (Hwf1 : dict_wf d1) by (by apply count_letters_wf).
    destruct (Honce (set_of w ∩ shared)) as [Hnd Hmem].
    assert (Hd1 : forall l, dict_get l d1
              = if decide (l ∈ set_of w /\ l ∈ shared)
                then Some (default 0 (dict_get l d0) + 1)%nat
                else dict_get l d0).
    { intros l. subst d1. rewrite count_letters_get by exact Hnd.
      destruct (decide (l ∈ set_iter (set_of w ∩ shared))) as [Hin|Hin];
        rewrite Hmem, elem_of_intersection in Hin.
      - by rewrite decide_True.
      - by rewrite decide_False. }
    match goal with
    | |- context [fold_left _ data (?p, d1)] =>
        destruct (IH p d1 Hwf1) as (Hp & Hwf' & Hget)
    end.
    split; [|split; [exact Hwf'|]].
    + rewrite Hp. cbn [List.filter].
      destruct (0 <? word_overlap shared w)%nat; [|reflexivity].
      by rewrite <- app_assoc.
    + intros l. rewrite Hget, Hd1. unfold letter_count.
      rewrite words_with_cons.
      destruct (decide (l ∈ shared)) as [Hs|Hs].
      * destruct (decide (l ∈ set_of w)) as [Hw|Hw].
        -- rewrite (decide_True (P := l ∈ set_of w /\ l ∈ shared))
             by (split; assumption).
           rewrite (decide_False (P := (1 + words_with l data)%nat = 0%nat))
             by lia.
           destruct (decide (words_with l data = 0%nat)) as [->|Hn];
             unfold default; cbn [from_option]; unfold id; f_equal; lia.
        -- rewrite (decide_False (P := l ∈ set_of w /\ l ∈ shared)) by tauto.
           reflexivity.
      * rewrite (decide_False (P := l ∈ set_of w /\ l ∈ shared)) by tauto.
        reflexivity.
Qed.
End most_shared_facts.

Lemma most_shared_possible_loop (set_iter : gset ascii -> list ascii)
    (shared : gset ascii) (data : list string)
    (p0 : list (string * nat)) (d0 : dict ascii nat) :
  fst (fold_left (most_shared_word set_iter shared) data (p0, d0))
  = p0 ++ map (fun w => (w, word_overlap shared w))
              (List.filter (fun w => (0 <? word_overlap shared w)%nat) data).
Proof.
  revert p0 d0. induction data as [|w data IH]; intros p0 d0.
  - cbn. by rewrite app_nil_r.
  - cbn [fold_left]. unfold most_shared_word at 2.
    fold (word_overlap shared w). rewrite IH. cbn [List.filter].
    destruct (0 <? word_overlap shared w)%nat; [|reflexivity].
    by rewrite <- app_assoc.
Qed.

Lemma most_shared_unfold (set_iter : gset ascii -> list ascii)
    (data : list string) (has_vowels : bool) :
  let acc := fold_left (most_shared_word set_iter (letter_class has_vowels))
                       data ([], []) in
  most_shared set_iter data has_vowels
  = (sorted_reverse snd (fst acc),
     fold_left (fun d kv => dict_set (fst kv) (snd kv) d)
               (sorted_reverse snd (snd acc)) []).
Proof.
  unfold most_shared, letter_class. cbv zeta.
  by destruct (fold_left (most_shared_word set_iter _) data ([], [])).
Qed.

Lemma dict_get_perm {V} (d1 d2 : dict ascii V) (l : ascii) :
  Permutation d1 d2 -> dict_wf d1 -> dict_get l d1 = dict_get l d2.
Proof.
  intros Hperm Hwf1.
  assert (Hwf2 : dict_wf d2).
  { unfold dict_wf, dict_keys in *. by rewrite <- Hperm. }
  destruct (dict_get l d1) as [v|] eqn:Hget.
  - symmetry. apply dict_get_elem_of; [exact Hwf2|].
    rewrite <- Hperm. by apply dict_get_Some_elem_of.
  - symmetry. apply dict_get_None_keys. apply dict_get_None_keys in Hget.
    unfold dict_keys in *. by rewrite <- Hperm.
Qed.

(** X14: the letter table of [most_shared], whatever the order in which
    sets are iterated: each letter is there once, the counts fall along the
    table, and a letter is in the table with the count [n] exactly when it
    belongs to the class and [n > 0] words of the list hold it (a word
    counts once, however often it repeats the letter). *)
Theorem most_shared_letters (set_iter : gset ascii -> list ascii)
    (data : list string) (has_vowels : bool) :
  set_iter_once set_iter ->
  let letters := snd (most_shared set_iter data has_vowels) in
  dict_wf letters
  /\ StronglySorted (fun x y => (snd y <= snd x)%nat) letters
  /\ forall l n,
       dict_get l letters = Some n
       <-> l ∈ letter_class has_vowels
           /\ n = words_with l data /\ (0 < n)%nat.
Proof.
  intros Honce letters. subst letters.
  pose proof (most_shared_unfold set_iter data has_vowels) as Hun.
  cbv zeta in Hun. rewrite Hun. clear Hun. cbn [snd].
  assert (Hnil : dict_wf ([] : dict ascii nat)) by constructor.
  pose proof (most_shared_loop set_iter Honce (letter_class has_vowels)
                data [] [] Hnil) as Hloop.
  cbv zeta in Hloop.
  set (letters0 := snd (fold_left
                          (most_shared_word set_iter (letter_class has_vowels))
                          data ([], []))) in *.
  destruct Hloop as (_ & Hwf0 & Hget0).
  assert (Hperm : Permutation (sorted_reverse snd letters0) letters0)
    by apply sorted_reverse_perm.
  assert (Hwfs : dict_wf (sorted_reverse snd letters0)).
  { unfold dict_wf, dict_keys in *.
    assert (Hk : Permutation (map fst (sorted_reverse snd letters0))
                             (map fst letters0))
      by (by apply Permutation_map).
    by rewrite Hk. }
  rewrite (fold_dict_set_fresh (sorted_reverse snd letters0) []) by exact Hwfs.
  cbn [app]. split; [exact Hwfs|].
  split; [apply (sorted_reverse_sorted snd)|].
  intros l n. rewrite (dict_get_perm _ _ l Hperm Hwfs), Hget0.
  unfold letter_count. cbn [dict_get default].
  destruct (decide (l ∈ letter_class has_vowels)) as [Hs|Hs].
  - destruct (decide (words_with l data = 0%nat)) as [Hz|Hz].
    + split; [discriminate | intros (_ & -> & Hpos); lia].
    + split.
      * intros [= <-]. repeat split; [exact Hs | lia].
      * intros (_ & -> & _). reflexivity.
  - rewrite decide_True by reflexivity.
    split; [discriminate | tauto].
Qed.

Lemma most_shared_letters_witness :
  dict_wf (snd (most_shared elements small_data true))
  /\ StronglySorted (fun x y => (snd y <= snd x)%nat)
                    (snd (most_shared elements small_data true))
  /\ forall l n,
       dict_get l (snd (most_shared elements small_data true)) = Some n
       <-> l ∈ letter_class true
           /\ n = words_with l small_data /\ (0 < n)%nat.
Proof.
  apply (most_shared_letters elements small_data true). exact elements_once.
Defined.

(** X15: the word list of [most_shared]: the words of the list that share a
    letter with the class, each with the number of class letters it holds,
    sorted by falling number, words of equal number in list order; the order
    in which sets are iterated plays no part in it. *)
Theorem most_shared_possible (set_iter : gset ascii -> list ascii)
    (data : list string) (has_vowels : bool) :
  let shared := letter_class has_vowels in
  let possible := fst (most_shared set_iter data has_vowels) in
  let hits :=
    map (fun w => (w, word_overlap shared w))
        (List.filter (fun w => (0 <? word_overlap shared w)%nat) data) in
  Permutation possible hits
  /\ StronglySorted (fun x y => (snd y <= snd x)%nat) possible
  /\ (forall n, List.filter (fun x => snd x =? n)%nat possible
                = List.filter (fun x => snd x =? n)%nat hits)
  /\ (forall w n, (w, n) ∈ possible
                  <-> w ∈ data /\ n = word_overlap shared w /\ (0 < n)%nat)
  /\ forall set_iter',
       fst (most_shared set_iter' data has_vowels) = possible.
Proof.
  intros shared possible hits.
  assert (Hposs : forall it, fst (most_shared it data has_vowels)
                             = sorted_reverse snd hits).
  { intros it. pose proof (most_shared_unfold it data has_vowels) as Hun.
    cbv zeta in Hun. rewrite Hun. cbn [fst].
    by rewrite most_shared_possible_loop. }
  subst possible. rewrite Hposs.
  split; [apply sorted_reverse_perm|].
  split; [apply (sorted_reverse_sorted snd)|].
  split; [intros n; apply (sorted_reverse_stable snd)|].
  split; [|intros it; apply Hposs].
  intros w n. rewrite (sorted_reverse_perm snd hits). subst hits.
  rewrite list_elem_of_In, in_map_iff. split.
  - intros (w' & [= -> <-] & Hin). apply filter_In in Hin as [Hin Hpos].
    apply Nat.ltb_lt in Hpos. split; [by apply list_elem_of_In|]. by split.
  - intros (Hin & -> & Hpos). exists w. split; [reflexivity|].
    apply filter_In. split; [by apply list_elem_of_In | by apply Nat.ltb_lt].
Qed.

(** ** More on the buckets *)

Lemma sorted_reverse_fixed {A} (key : A -> nat) (l : list A) :
  StronglySorted (key_ge key) l -> sorted_reverse key l = l.
Proof.
  induction 1 as [|x l Hs IH Hall]; [reflexivity|].
  cbn [sorted_reverse]. rewrite IH.
  destruct l as [|y l']; [reflexivity|]. cbn [insert_reverse].
  apply Forall_cons in Hall as [Hy _]. unfold key_ge in Hy.
  destruct (Nat.ltb_spec (key x) (key y)); [lia | reflexivity].
Qed.

(** X16: [break_ties] applied to its own result changes nothing: the
    buckets are already sorted, and the sort keeps equal scores in place. *)
Theorem break_ties_idempotent (usage_vowels : usage_table) (cands : buckets)
    (usage usage' : usage_table) :
  dict_wf cands ->
  break_ties usage_vowels (break_ties usage_vowels cands usage) usage'
  = break_ties usage_vowels cands usage.
Proof.
  intros Hwf. rewrite (break_ties_map usage_vowels cands) by exact Hwf.
  rewrite break_ties_map.
  - rewrite map_map. apply map_ext. intros [k ws].
    unfold sort_bucket. cbn [fst snd]. f_equal.
    apply sorted_reverse_fixed, sorted_reverse_sorted.
  - unfold dict_wf. by rewrite sort_bucket_keys.
Qed.

Lemma break_ties_idempotent_witness :
  break_ties notebook_usage_vowels
    (break_ties notebook_usage_vowels
       [(2%nat, ["cigar"; "rebut"; "siste"]); (1%nat, ["humph"])] []) []
  = break_ties notebook_usage_vowels
      [(2%nat, ["cigar"; "rebut"; "siste"]); (1%nat, ["humph"])] [].
Proof.
  apply (break_ties_idempotent notebook_usage_vowels
           [(2%nat, ["cigar"; "rebut"; "siste"]); (1%nat, ["humph"])] [] []).
  by_evaluation.
Defined.

Lemma size_set_of_le (w : string) : (size (set_of w) <= String.length w)%nat.
Proof.
  unfold set_of. induction w as [|a w IH]; cbn [list_ascii_of_string
    list_to_set String.length foldr].
  - by rewrite size_empty.
  - rewrite size_union_alt, size_singleton.
    assert (size (list_to_set (list_ascii_of_string w) ∖ {[a]} : gset ascii)
            <= size (list_to_set (list_ascii_of_string w) : gset ascii))%nat.
    { apply subseteq_size. apply elem_of_subseteq. intros x.
      rewrite elem_of_difference. tauto. }
    lia.
Qed.

(** X17: the key of a bucket is bounded: a word of the pool built from the
    word list sits in a bucket whose key is at most its length and at most
    the size of the letter class, 6 for the vowels and 20 for the
    consonants. *)
Theorem feature_bucket_key_bound (usage_vowels : usage_table)
    (data : list string) (usage : usage_table) (has_vowels : bool)
    (k : nat) (ws : list string) (w : string) :
  (k, ws) ∈ feature_bucket usage_vowels (make_cands data) usage has_vowels ->
  w ∈ ws ->
  w ∈ data
  /\ k = word_overlap (letter_class has_vowels) w
  /\ (k <= String.length w)%nat
  /\ (k <= if has_vowels then 6 else 20)%nat.
Proof.
  intros Hin Hw. rewrite feature_bucket_map in Hin.
  apply elem_of_sort_bucket in Hin as (ws0 & Hin & ->).
  apply fill_buckets_elem_of in Hin as [-> _].
  rewrite sorted_reverse_perm in Hw.
  apply elem_of_words_with_overlap in Hw as (S & HS & <-).
  apply dict_get_Some_iff in HS; [|apply make_cands_wf].
  rewrite make_cands_lookup in HS.
  destruct (decide (w ∈ data)) as [Hdata|]; [|discriminate].
  injection HS as <-. split; [exact Hdata|]. split; [reflexivity|].
  unfold overlap, word_overlap, len. cbn [snd]. split.
  - etransitivity; [|apply size_set_of_le].
    apply subseteq_size, elem_of_subseteq. intros x.
    rewrite elem_of_intersection. tauto.
  - etransitivity.
    + apply (subseteq_size (set_of w ∩ letter_class has_vowels)
                           (letter_class has_vowels)).
      apply elem_of_subseteq. intros x. rewrite elem_of_intersection. tauto.
    + destruct has_vowels; vm_compute; lia.
Qed.

Lemma feature_bucket_key_bound_witness :
  "siste" ∈ small_data
  /\ 2%nat = word_overlap (letter_class true) "siste"
  /\ (2 <= String.length "siste")%nat
  /\ (2 <= 6)%nat.
Proof.
  apply (feature_bucket_key_bound notebook_usage_vowels small_data [] true
           2%nat ["siste"; "cigar"; "rebut"] "siste").
  - by_evaluation.
  - by_evaluation.
Defined.

(** ** compute_wordle and the value of max_tries *)

(** On a pool that is not empty, a pass through the loop body starts by
    evaluating a word of the pool under the counter value it was given. *)
Lemma loop_body_first_guess (usage_vowels : usage_table) (word : string)
    (uv uc : usage_table) (attempt : Z) (w : world) r w' :
  w_cands w <> [] ->
  loop_body usage_vowels word uv uc attempt w = (r, w') ->
  exists g rest,
    w_evaluated w' = w_evaluated w ++ (attempt, g) :: rest
    /\ g ∈ dict_keys (w_cands w).
Proof.
  intros Hne.
  unfold loop_body, mbind, M_bind, mret, M_ret, lift, read_cands,
    call_play_wordle, call_eliminate.
  cbn [w_cands w_evaluated].
  destruct (choose_guess_on_pool usage_vowels (w_cands w) uv true Hne)
    as [g1 Hg1].
  rewrite Hg1. apply choose_guess_in_pool in Hg1. cbv beta iota.
  destruct (play_wordle g1 word) as [board1 found1]. cbv beta iota.
  destruct (solved_game board1); cbv beta iota; cbn [w_cands w_evaluated].
  { split_outcome. exists g1, []. by split. }
  destruct (eliminate (w_cands w) board1 found1 (set_of g1 ∖ found1))
    as [r1 cands1].
  cbv beta iota. cbn [w_cands w_evaluated].
  destruct r1 as [[]|e1]; cbv beta iota; cbn [w_cands w_evaluated].
  2:{ split_outcome. exists g1, []. by split. }
  destruct (choose_guess (feature_bucket usage_vowels cands1 uv false))
    as [g2|e2].
  2:{ split_outcome. exists g1, []. by split. }
  destruct (play_wordle g2 word) as [board2 found2]. cbv beta iota.
  destruct (solved_game board2); cbv beta iota; cbn [w_cands w_evaluated].
  { split_outcome. exists g1, [((attempt + 1)%Z, g2)]. cbn.
    split; [by rewrite <- app_assoc | exact Hg1]. }
  destruct (eliminate cands1 board2 found2 (set_of g2 ∖ found2))
    as [r2 cands2].
  cbv beta iota. cbn [w_cands w_evaluated].
  destruct r2 as [[]|e2]; split_outcome;
    exists g1, [((attempt + 1)%Z, g2)]; cbn;
    (split; [by rewrite <- app_assoc | exact Hg1]).
Qed.

(** C8, as the code is designed: [compute_wordle] makes no check of
    [max_tries] and no call raises an [InvalidConfigurationError], whatever
    the value.  With [max_tries <= 0] the [while] test fails at once: no guess
    is evaluated and the pool is left as it was.  With [max_tries >= 1] the
    value is accepted and, on a pool that is not empty, a word of the pool is
    evaluated under attempt 1.  Every call comes to an end. *)
Theorem compute_wordle_no_configuration_error (usage_vowels : usage_table)
    (cands : pool) (word : string) (uv uc : usage_table) (max_tries : Z) :
  exists r w,
    compute_wordle usage_vowels cands word uv uc max_tries = Some (r, w)
    /\ ~ raises r "InvalidConfigurationError"
    /\ ((max_tries <= 0)%Z ->
        w_evaluated w = [] /\ w_cands w = cands)
    /\ ((1 <= max_tries)%Z -> cands <> [] ->
        exists g rest,
          w_evaluated w = (1%Z, g) :: rest /\ g ∈ dict_keys cands).
Proof.
  destruct (compute_wordle_total usage_vowels cands word uv uc max_tries)
    as (r & w & Hrun).
  exists r, w. split; [exact Hrun|]. split; [|split].
  - intros (e & _ & Hname). destruct e; discriminate Hname.
  - intros Hle. unfold compute_wordle in Hrun.
    rewrite Z2Nat.nonpos in Hrun by exact Hle.
    cbn [compute_wordle_loop] in Hrun.
    destruct (Z.leb_spec 1 max_tries); [lia|].
    injection Hrun as _ <-. by split.
  - intros Hge Hne. unfold compute_wordle in Hrun.
    destruct (Z.to_nat max_tries) as [|fuel] eqn:Hfuel; [lia|].
    cbn [compute_wordle_loop] in Hrun.
    destruct (Z.leb_spec 1 max_tries); [|lia].
    destruct (loop_body usage_vowels word uv uc 1
                        {| w_cands := cands; w_evaluated := [] |})
      as [r0 w0] eqn:Hbody.
    apply loop_body_first_guess in Hbody as (g & rest & Hlog & Hg);
      [|exact Hne].
    cbn [w_cands w_evaluated app] in Hlog, Hg.
    destruct r0 as [[h|[attempt' board']]|e].
    + injection Hrun as _ <-. eauto.
    + apply compute_wordle_loop_facts in Hrun as (_ & (L & HL & _) & _).
      exists g, (rest ++ L). split; [|exact Hg]. by rewrite HL, Hlog.
    + injection Hrun as _ <-. eauto.
Qed.

Lemma compute_wordle_no_configuration_error_witness :
  (exists r w,
      compute_wordle notebook_usage_vowels test_cands "siste"
                     notebook_usage_vowels [] 0 = Some (r, w)
      /\ w_evaluated w = [] /\ w_cands w = test_cands)
  /\ exists r w g rest,
       compute_wordle notebook_usage_vowels test_cands "humph"
                      notebook_usage_vowels [] 6 = Some (r, w)
       /\ w_evaluated w = (1%Z, g) :: rest /\ g ∈ dict_keys test_cands.
Proof.
  split.
  - destruct (compute_wordle_no_configuration_error
                notebook_usage_vowels test_cands "siste"
                notebook_usage_vowels [] 0)
      as (r & w & Hrun & _ & Hzero & _).
    exists r, w. split; [exact Hrun|]. apply Hzero. lia.
  - destruct (compute_wordle_no_configuration_error
                notebook_usage_vowels test_cands "humph"
                notebook_usage_vowels [] 6)
      as (r & w & Hrun & _ & _ & Hpos).
    destruct Hpos as (g & rest & Hlog & Hg); [lia | discriminate|].
    exists r, w, g, rest. by repeat split.
Defined.
